(** * The demon-energy annealing solver of infinigen's constraint solver

    A shallow embedding of [SimulatedAnnealingSolver]
    (src/infinigen/core/constraints/example_solver/annealing_testOptiP.py):
    the proposal retry loop, the lazy-evaluation cross check, the demon
    acceptance rule, the decaying energy ceiling and the per-iteration
    driver [step].

    The solver object ([self]) is a record that is passed in and returned;
    the scene state, the random number generator and the log of calls made
    to the collaborators (move generator, moves, memo eviction) form a second
    record, the world.  Exceptions are values of an outcome type that keeps
    the solver and world reached when the exception was raised. *)

From Stdlib Require Import ZArith QArith Qreduction Qpower Floats Bool List Lia.
From stdpp Require Import base option list gmap.

Set Default Proof Using "Type".
Local Open Scope Z_scope.

(** ** Numbers

    Losses and energies are Python numbers: the configured energies may be
    integers, losses are floats.  The solver only subtracts, multiplies,
    raises to an integer power and compares them, so the embedding is
    generic in the number type and is instantiated below at exact rationals
    and at IEEE binary64. *)

Class Arith (num : Type) := {
  nsub : num -> num -> num;          (* a - b *)
  nleb : num -> num -> bool;         (* a <= b *)
  nltb : num -> num -> bool;         (* a < b *)
  neqb : num -> num -> bool;         (* a == b *)
  nzero : num;                       (* the literal 0 *)
  ncent : num                        (* the literal 0.01 *)
}.

Definition ngeb {num} `{Arith num} (a b : num) : bool := nleb b a.
Definition ngtb {num} `{Arith num} (a b : num) : bool := nltb b a.

(** The part of the arithmetic that only the energy ceiling needs. *)
Class Decay (num : Type) `{Arith num} := {
  nmul : num -> num -> num;          (* a * b *)
  npow : num -> Z -> num;            (* a ** k, k an int *)
  nltb_irrefl : forall x, nltb x x = false
}.

(** Exact rationals, kept in lowest terms so that equal numbers are equal
    terms. *)
#[export] Instance Q_Arith : Arith Q := {|
  nsub a b := Qred (a - b);
  nleb a b := Qle_bool a b;
  nltb a b := negb (Qle_bool b a);
  neqb a b := Qeq_bool a b;
  nzero := 0%Q;
  ncent := (1 # 100)%Q
|}.

#[export] Instance Q_Decay : Decay Q := {|
  nmul a b := Qred (a * b);
  npow a k := Qred (Qpower a k);
  nltb_irrefl x := f_equal negb (proj2 (Qle_bool_iff x x) (Qle_refl x))
|}.

(** IEEE binary64, the arithmetic of a Python float. *)
#[export] Instance float_Arith : Arith float := {|
  nsub := PrimFloat.sub;
  nleb := PrimFloat.leb;
  nltb := PrimFloat.ltb;
  neqb := PrimFloat.eqb;
  nzero := 0%float;
  ncent := 0x1.47ae147ae147bp-7%float
|}.

(** ** Outcomes

    A call returns a value, raises an exception, or (in the model only) runs
    out of fuel.  The first two keep the state reached. *)

Inductive outcome (E S A : Type) : Type :=
| Ret (s : S) (a : A)
| Raise (s : S) (e : E)
| Timeout.
Arguments Ret {E S A} s a.
Arguments Raise {E S A} s e.
Arguments Timeout {E S A}.

Definition bind {E S A B} (c : outcome E S A) (k : S -> A -> outcome E S B)
  : outcome E S B :=
  match c with
  | Ret s a => k s a
  | Raise s e => Raise s e
  | Timeout => Timeout
  end.

Notation "'let*' ( s , x ) := c 'in' k" := (bind c (fun s x => k))
  (at level 10, s name, x name, c at level 200, k at level 200).

(** The state in which a call ended, unless it ran out of fuel. *)
Definition outcome_state {E S A} (c : outcome E S A) : option S :=
  match c with
  | Ret s _ | Raise s _ => Some s
  | Timeout => None
  end.

(** ** The data of the solver *)

(** The dictionary built by [accept_move], or the null entry of [step]. *)
Record AcceptResult (num : Type) := mkAcceptResult {
  ar_delta_energy : num;
  ar_demon_energy : num;
  ar_demon_energy_max : num;
  ar_accept : option bool
}.
Arguments mkAcceptResult {num}.
Arguments ar_delta_energy {num}.
Arguments ar_demon_energy {num}.
Arguments ar_demon_energy_max {num}.
Arguments ar_accept {num}.

(** One row of [self.stats] (timings and names left out). *)
Record StatRecord (num Move : Type) := mkStat {
  st_curr_iteration : Z;
  st_loss : num;
  st_viol : Z;
  st_best_loss : option num;
  st_demon_energy : num;
  st_demon_energy_max : num;
  st_reduction_factor : num;
  st_initial_demon_energy : num;
  st_initial_demon_energy_max : num;
  st_accept : option bool;
  st_move : option Move;
  st_retry : option Z
}.
Arguments mkStat {num Move}.
Arguments st_accept {num Move}.
Arguments st_move {num Move}.
Arguments st_retry {num Move}.
Arguments st_curr_iteration {num Move}.

(** The calls that the solver makes to its collaborators, in order. *)
Inductive Call (Move Node : Type) : Type :=
| Pulled (m : Move)                      (* next(move_gen) yielded m *)
| Applied (m : Move) (succeeded : bool)  (* m.apply(state) *)
| Evicted (m : Move)                     (* eval_memo.evict_memo_for_move *)
| Evaluated (m : Move)                   (* self._move evaluated the candidate *)
| Reverted (m : Move)                    (* m.revert(state) *)
| Accepted (m : Move)                    (* m.accept(state) *)
| Reported (n : Node).                   (* "memo for node is out of sync" *)
Arguments Pulled {Move Node}.
Arguments Applied {Move Node}.
Arguments Evicted {Move Node}.
Arguments Evaluated {Move Node}.
Arguments Reverted {Move Node}.
Arguments Accepted {Move Node}.
Arguments Reported {Move Node}.

(** The exceptions that can leave the solver. *)
Inductive exn (num Key : Type) : Type :=
| ValueError (real_loss prop_loss : num)  (* validate_lazy_eval *)
| KeyError (k : Key)                      (* test_memo[key] *)
| AttributeError.                         (* self.curr_result is None *)
Arguments ValueError {num Key}.
Arguments KeyError {num Key}.
Arguments AttributeError {num Key}.

(** The move protocol ([moves.Move]).  A move object keeps what it needs to
    undo itself, so [apply] also returns the move as it is afterwards. *)
Class MoveProtocol (State Move : Type) := {
  apply : Move -> State -> bool * Move * State;
  revert : Move -> State -> State;
  accept : Move -> State -> State
}.

(** The [gin] bindings of the keyword arguments of [_move]. *)
Record MoveConfig := mkMoveConfig {
  do_lazy_eval : bool;
  validate_lazy_eval_flag : bool
}.
Definition default_move_config : MoveConfig := mkMoveConfig true false.

Section Solver.

Context {num : Type} {HA : Arith num} {HD : Decay num}.
Context {Key : Type} `{Countable Key}.
Context {State Move : Type} {HM : MoveProtocol State Move}.
Variables Val Node Graph Domain Gen Rng EvalResult : Type.

(** *** Collaborators that are not part of the solver *)

(** [EvalResult.loss()] and [EvalResult.viol_count()]. *)
Variable loss : EvalResult -> num.
Variable viol_count : EvalResult -> Z.

(** [evaluate.evaluate_problem(consgraph, state, filter_domain, memo)]: the
    result and the memo as the call leaves it.  The first argument is the
    global [impl_util.DISABLE_BVH_CACHE] at the time of the call. *)
Variable evaluate_problem :
  bool -> Graph -> State -> Domain -> gmap Key Val -> EvalResult * gmap Key Val.

(** [eval_memo.evict_memo_for_move(consgraph, state, memo, move)]. *)
Variable evict_memo_for_move : Graph -> State -> gmap Key Val -> Move -> gmap Key Val.

(** [eval_memo.memo_key], [consgraph.traverse(inorder=False)] and [==] on
    memo entries. *)
Variable memo_key : Node -> Key.
Variable traverse : Graph -> list Node.
Variable val_eqb : Val -> Val -> bool.

(** A move generator is pulled one candidate at a time; it may look at the
    state and need not ever finish. *)
Variable next : Gen -> State -> option (Move * Gen).

(** [random.uniform(0, 1)]. *)
Variable uniform : Rng -> num * Rng.

(** The bindings in force for [_move]. *)
Variable gin : MoveConfig.

Definition ProposeFunc : Type := Graph -> State -> Domain -> num -> Gen.

(** *** The solver object and the world *)

Record Solver := mkSolver {
  max_invalid_candidates : Z;
  print_report_freq : Z;
  print_breakdown_freq : Z;
  initial_demon_energy : num;
  initial_demon_energy_max : num;
  reduction_factor : num;
  max_iterations : Z;
  best_loss : option num;
  eval_memo : gmap Key Val;
  stats : list (StatRecord num Move);
  demon_energy : num;
  demon_energy_max : num;
  curr_iteration : Z;
  curr_result : option EvalResult;
  last_eval_result : option EvalResult
}.

Definition set_eval_memo (v : gmap Key Val) (s : Solver) : Solver :=
  mkSolver (max_invalid_candidates s) (print_report_freq s) (print_breakdown_freq s)
    (initial_demon_energy s) (initial_demon_energy_max s) (reduction_factor s)
    (max_iterations s) (best_loss s) v (stats s) (demon_energy s)
    (demon_energy_max s) (curr_iteration s) (curr_result s) (last_eval_result s).

Definition set_stats (v : list (StatRecord num Move)) (s : Solver) : Solver :=
  mkSolver (max_invalid_candidates s) (print_report_freq s) (print_breakdown_freq s)
    (initial_demon_energy s) (initial_demon_energy_max s) (reduction_factor s)
    (max_iterations s) (best_loss s) (eval_memo s) v (demon_energy s)
    (demon_energy_max s) (curr_iteration s) (curr_result s) (last_eval_result s).

Definition set_demon_energy (v : num) (s : Solver) : Solver :=
  mkSolver (max_invalid_candidates s) (print_report_freq s) (print_breakdown_freq s)
    (initial_demon_energy s) (initial_demon_energy_max s) (reduction_factor s)
    (max_iterations s) (best_loss s) (eval_memo s) (stats s) v
    (demon_energy_max s) (curr_iteration s) (curr_result s) (last_eval_result s).

Definition set_demon_energy_max (v : num) (s : Solver) : Solver :=
  mkSolver (max_invalid_candidates s) (print_report_freq s) (print_breakdown_freq s)
    (initial_demon_energy s) (initial_demon_energy_max s) (reduction_factor s)
    (max_iterations s) (best_loss s) (eval_memo s) (stats s) (demon_energy s)
    v (curr_iteration s) (curr_result s) (last_eval_result s).

Definition set_curr_iteration (v : Z) (s : Solver) : Solver :=
  mkSolver (max_invalid_candidates s) (print_report_freq s) (print_breakdown_freq s)
    (initial_demon_energy s) (initial_demon_energy_max s) (reduction_factor s)
    (max_iterations s) (best_loss s) (eval_memo s) (stats s) (demon_energy s)
    (demon_energy_max s) v (curr_result s) (last_eval_result s).

Definition set_curr_result (v : option EvalResult) (s : Solver) : Solver :=
  mkSolver (max_invalid_candidates s) (print_report_freq s) (print_breakdown_freq s)
    (initial_demon_energy s) (initial_demon_energy_max s) (reduction_factor s)
    (max_iterations s) (best_loss s) (eval_memo s) (stats s) (demon_energy s)
    (demon_energy_max s) (curr_iteration s) v (last_eval_result s).

Definition set_last_eval_result (v : option EvalResult) (s : Solver) : Solver :=
  mkSolver (max_invalid_candidates s) (print_report_freq s) (print_breakdown_freq s)
    (initial_demon_energy s) (initial_demon_energy_max s) (reduction_factor s)
    (max_iterations s) (best_loss s) (eval_memo s) (stats s) (demon_energy s)
    (demon_energy_max s) (curr_iteration s) (curr_result s) v.

Record World := mkWorld {
  w_state : State;
  w_rng : Rng;
  w_calls : list (Call Move Node)
}.

Definition set_state (st : State) (w : World) : World :=
  mkWorld st (w_rng w) (w_calls w).
Definition set_rng (g : Rng) (w : World) : World :=
  mkWorld (w_state w) g (w_calls w).
Definition call (c : Call Move Node) (w : World) : World :=
  mkWorld (w_state w) (w_rng w) (w_calls w ++ [c]).

Definition Store : Type := Solver * World.
Definition M (A : Type) : Type := outcome (exn num Key) Store A.

(** *** [reset] *)

Definition reset (max_iters : Z) (self : Solver) : Solver :=
  mkSolver (max_invalid_candidates self) (print_report_freq self)
    (print_breakdown_freq self) (initial_demon_energy self)
    (initial_demon_energy_max self) (reduction_factor self)
    max_iters None ∅ (stats self)
    (initial_demon_energy self) (initial_demon_energy_max self)
    0 None (last_eval_result self).

(** *** [validate_lazy_eval] *)

(** The loop over [consgraph.traverse(inorder=False)]: the world after the
    reports, or the key whose lookup in [test_memo] failed. *)
Fixpoint report_out_of_sync (shared test_memo : gmap Key Val) (nodes : list Node)
    (w : World) : World * option Key :=
  match nodes with
  | [] => (w, None)
  | n :: nodes =>
    let key := memo_key n in
    match shared !! key with
    | None => report_out_of_sync shared test_memo nodes w
    | Some lazy =>
      match test_memo !! key with
      | None => (w, Some key)
      | Some fresh =>
        if val_eqb fresh lazy
        then report_out_of_sync shared test_memo nodes w
        else report_out_of_sync shared test_memo nodes (call (Reported n) w)
      end
    end
  end.

Definition validate_lazy_eval (consgraph : Graph) (prop_result : EvalResult)
    (filter_domain : Domain) (self : Solver) (w : World) : M unit :=
  let '(real_result, test_memo) :=
    evaluate_problem true consgraph (w_state w) filter_domain ∅ in
  if neqb (loss real_result) (loss prop_result) then Ret (self, w) tt
  else
    match report_out_of_sync (eval_memo self) test_memo (traverse consgraph) w with
    | (w, Some key) => Raise (self, w) (KeyError key)
    | (w, None) => Raise (self, w) (ValueError (loss real_result) (loss prop_result))
    end.

(** *** [_move] *)

Definition _move (consgraph : Graph) (move : Move) (filter_domain : Domain)
    (do_lazy_eval validate_lazy_eval_flag : bool) (self : Solver) (w : World)
    : M EvalResult :=
  let '(self, w, prop_result) :=
    if do_lazy_eval then
      let memo := evict_memo_for_move consgraph (w_state w) (eval_memo self) move in
      let '(prop_result, memo) :=
        evaluate_problem false consgraph (w_state w) filter_domain memo in
      (set_eval_memo memo self, call (Evaluated move) (call (Evicted move) w),
       prop_result)
    else
      (self, call (Evaluated move) w,
       fst (evaluate_problem false consgraph (w_state w) filter_domain ∅)) in
  if validate_lazy_eval_flag then
    let* (s, _u) := validate_lazy_eval consgraph prop_result filter_domain self w in
    Ret s prop_result
  else Ret (self, w) prop_result.

(** *** [retry_attempt_proposals] *)

(** The [for retry, move in enumerate(move_gen)] loop.  [idx] is the
    counter of [enumerate]; [move] and [retry] are the loop variables as
    the previous iteration left them. *)
Fixpoint retry_loop (fuel : nat) (consgraph : Graph) (filter_domain : Domain)
    (move_gen : Gen) (idx : Z) (move : option Move) (retry : option Z)
    (self : Solver) (w : World)
    : M (option Move * option EvalResult * option Z) :=
  match fuel with
  | O => Timeout
  | S fuel =>
    match next move_gen (w_state w) with
    | None => Ret (self, w) (move, None, retry)
    | Some (m, move_gen) =>
      let w := call (Pulled m) w in
      if idx =? max_invalid_candidates self then
        Ret (self, w) (Some m, None, Some idx)
      else
        let '(succeeded, m, state) := apply m (w_state w) in
        let w := call (Applied m succeeded) (set_state state w) in
        if succeeded then
          let memo := evict_memo_for_move consgraph state (eval_memo self) m in
          let self := set_eval_memo memo self in
          let w := call (Evicted m) w in
          let* (s, result) := _move consgraph m filter_domain (do_lazy_eval gin)
                                (validate_lazy_eval_flag gin) self w in
          Ret s (Some m, Some result, Some idx)
        else
          let memo := evict_memo_for_move consgraph state (eval_memo self) m in
          let self := set_eval_memo memo self in
          let w := call (Evicted m) w in
          let w := call (Reverted m) (set_state (revert m state) w) in
          retry_loop fuel consgraph filter_domain move_gen (idx + 1)
            (Some m) (Some idx) self w
    end
  end.

Definition retry_attempt_proposals (fuel : nat) (propose_func : ProposeFunc)
    (consgraph : Graph) (temp : num) (filter_domain : Domain)
    (self : Solver) (w : World)
    : M (option Move * option EvalResult * option Z) :=
  let move_gen := propose_func consgraph (w_state w) filter_domain temp in
  retry_loop fuel consgraph filter_domain move_gen 0 None None self w.

(** *** The demon rule *)

Definition calculate_delta_energy (prop_result : EvalResult) (self : Solver)
    (w : World) : M num :=
  match curr_result self with
  | Some curr => Ret (self, w) (nsub (loss prop_result) (loss curr))
  | None => Raise (self, w) AttributeError
  end.

Definition random_acceptance_chance : num := ncent.

Definition accept_move (delta_energy : num) (prop_result : EvalResult)
    (self : Solver) (w : World) : M (AcceptResult num) :=
  match curr_result self with
  | None => Raise (self, w) AttributeError
  | Some curr =>
    let prop_viol := viol_count prop_result in
    let curr_viol := viol_count curr in
    let viol_diff := prop_viol - curr_viol in
    let result :=
      mkAcceptResult delta_energy (demon_energy self) (demon_energy_max self) in
    if 0 <? viol_diff then Ret (self, w) (result (Some false))
    else if viol_diff <? 0 then Ret (self, w) (result (Some true))
    else if ngeb (demon_energy self) delta_energy || nleb delta_energy nzero then
      Ret (set_demon_energy (nsub (demon_energy self) delta_energy) self, w)
          (result (Some true))
    else
      let '(draw, rng) := uniform (w_rng w) in
      if nltb draw random_acceptance_chance
      then Ret (self, set_rng rng w) (result (Some true))
      else Ret (self, set_rng rng w) (result (Some false))
  end.

Definition update_demon_energy_max (self : Solver) : Solver :=
  let self :=
    set_demon_energy_max
      (nmul (initial_demon_energy_max self)
            (npow (reduction_factor self) (curr_iteration self))) self in
  if ngtb (demon_energy self) (demon_energy_max self)
  then set_demon_energy (demon_energy_max self) self
  else self.

(** *** [step] *)

(** The entry that [step] uses when no move came out of the retry loop. *)
Definition null_accept_result : AcceptResult num :=
  mkAcceptResult nzero nzero nzero None.

(** Truth value of [accept_result["accept"]], which may be [None]. *)
Definition truthy (a : option bool) : bool :=
  match a with Some true => true | _ => false end.

(** The first statement of [step]: when there is no current result yet, the
    unmodified state is evaluated.  The call passes no memo; it is taken to
    start from an empty one. *)
Definition seed_curr_result (consgraph : Graph) (filter_domain : Domain)
    (self : Solver) (w : World) : Solver :=
  match curr_result self with
  | None =>
    set_curr_result
      (Some (fst (evaluate_problem false consgraph (w_state w) filter_domain ∅)))
      self
  | Some _ => self
  end.

(** The first half of [step]: seed the current result, run the retry
    loop, decide, and accept or revert the move.  The locals [move],
    [prop_result], [retry] and [accept_result] are returned for the second
    half. *)
Definition step_decide (fuel : nat) (consgraph : Graph)
    (move_gen_func : ProposeFunc) (filter_domain : Domain)
    (self : Solver) (w : World)
    : M (option Move * option EvalResult * option Z * AcceptResult num) :=
  let self := seed_curr_result consgraph filter_domain self w in
  let* (s, r) := retry_attempt_proposals fuel move_gen_func consgraph
                   (demon_energy self) filter_domain self w in
  let '(move, prop_result, retry) := r in
  match prop_result with
  | None => Ret s (move, prop_result, retry, null_accept_result)
  | Some prop =>
    let* (s, dt_energy) := calculate_delta_energy prop (fst s) (snd s) in
    let* (s, accept_result) := accept_move dt_energy prop (fst s) (snd s) in
    let '(self, w) := s in
    match move with
    | None => Raise s AttributeError
    | Some m =>
      if truthy (ar_accept accept_result) then
        let self := set_curr_result (Some prop) self in
        let w := call (Accepted m) (set_state (accept m (w_state w)) w) in
        Ret (self, w) (move, prop_result, retry, accept_result)
      else
        let memo := evict_memo_for_move consgraph (w_state w) (eval_memo self) m in
        let self := set_eval_memo memo self in
        let w := call (Evicted m) w in
        let w := call (Reverted m) (set_state (revert m (w_state w)) w) in
        Ret (self, w) (move, prop_result, retry, accept_result)
    end
  end.

Definition is_log_step (self : Solver) : bool :=
  negb (print_report_freq self =? 0)
  && (curr_iteration self mod print_report_freq self =? 0).

(** The row appended to [self.stats] on a log step. *)
Definition stat_row (self : Solver) (curr : EvalResult) (accept : option bool)
    (move : option Move) (retry : option Z) : StatRecord num Move :=
  mkStat (curr_iteration self) (loss curr) (viol_count curr) (best_loss self)
    (demon_energy self) (demon_energy_max self) (reduction_factor self)
    (initial_demon_energy self) (initial_demon_energy_max self)
    accept move retry.

(** One iteration.  Console and logger output, the progress queue, timing
    and garbage collection have no effect on the solver or the state and
    are left out. *)
Definition step (fuel : nat) (consgraph : Graph) (move_gen_func : ProposeFunc)
    (filter_domain : Domain) (self : Solver) (w : World) : M unit :=
  let log_step := is_log_step self in
  let* (s, r) := step_decide fuel consgraph move_gen_func filter_domain self w in
  let '(move, prop_result, retry, accept_result) := r in
  let '(self, w) := s in
  let self := update_demon_energy_max self in
  let* (s, _u) :=
    if log_step then
      match curr_result self with
      | Some curr =>
        let row := stat_row self curr (ar_accept accept_result) move retry in
        Ret (set_stats (stats self ++ [row]) self, w) tt
      | None => Raise (self, w) AttributeError
      end
    else Ret (self, w) tt in
  let '(self, w) := s in
  let self := set_curr_iteration (curr_iteration self + 1) self in
  let self :=
    match prop_result with
    | Some _ => set_last_eval_result prop_result self
    | None => self
    end in
  Ret (self, w) tt.

(** The solvers reachable by [reset] followed by [k] completed calls of
    [step]; between the calls the caller may do anything to the world. *)
Inductive after_steps (self0 : Solver) (max_iters : Z) : nat -> Solver -> Prop :=
| after_reset : after_steps self0 max_iters 0 (reset max_iters self0)
| after_step k fuel consgraph move_gen_func filter_domain self w self' w' :
    after_steps self0 max_iters k self ->
    step fuel consgraph move_gen_func filter_domain self w = Ret (self', w') tt ->
    after_steps self0 max_iters (S k) self'.

(** Counting the calls of one kind in a log. *)
Definition is_pulled (c : Call Move Node) : bool :=
  match c with Pulled _ => true | _ => false end.
Definition is_applied (c : Call Move Node) : bool :=
  match c with Applied _ _ => true | _ => false end.
Definition is_evaluated (c : Call Move Node) : bool :=
  match c with Evaluated _ => true | _ => false end.
Definition count_calls (p : Call Move Node -> bool) (l : list (Call Move Node)) : Z :=
  Z.of_nat (length (List.filter p l)).

(** ** Properties of the demon rule *)

(** What [accept_move] builds before it decides. *)
Definition accept_entry (delta_energy : num) (self : Solver) (a : option bool)
  : AcceptResult num :=
  mkAcceptResult delta_energy (demon_energy self) (demon_energy_max self) a.

(** The branch taken when the violation counts are equal. *)
Lemma accept_move_soft delta prop curr self w :
  curr_result self = Some curr ->
  viol_count prop = viol_count curr ->
  accept_move delta prop self w =
    if ngeb (demon_energy self) delta || nleb delta nzero then
      Ret (set_demon_energy (nsub (demon_energy self) delta) self, w)
          (accept_entry delta self (Some true))
    else
      Ret (self, set_rng (snd (uniform (w_rng w))) w)
          (accept_entry delta self
             (Some (nltb (fst (uniform (w_rng w))) random_acceptance_chance))).
Proof.
  intros Hcurr Hviol. unfold accept_move, accept_entry. rewrite Hcurr, Hviol.
  replace (viol_count curr - viol_count curr) with 0 by lia. cbn [Z.ltb Z.compare].
  destruct (ngeb (demon_energy self) delta || nleb delta nzero); [reflexivity|].
  destruct (uniform (w_rng w)) as [draw rng]; cbn [fst snd].
  destruct (nltb draw random_acceptance_chance); reflexivity.
Qed.

(** C2 (as amended): with equal violation counts, a move that the demon can
    afford ([demon_energy >= delta_energy]) or that does not worsen the loss
    ([delta_energy <= 0]) is accepted and the demon pays exactly
    [delta_energy]; any other move is accepted exactly when the random draw
    is below 0.01, and then, as on rejection, [demon_energy] is left as it
    was. *)
Theorem accept_move_equal_violations delta prop curr self w :
  curr_result self = Some curr ->
  viol_count prop = viol_count curr ->
  exists self' w' a,
    accept_move delta prop self w = Ret (self', w') (accept_entry delta self a) /\
    (ngeb (demon_energy self) delta || nleb delta nzero = true ->
       a = Some true /\
       demon_energy self' = nsub (demon_energy self) delta) /\
    (ngeb (demon_energy self) delta || nleb delta nzero = false ->
       a = Some (nltb (fst (uniform (w_rng w))) random_acceptance_chance) /\
       self' = self).
Proof.
  intros Hcurr Hviol. rewrite (accept_move_soft _ _ _ _ _ Hcurr Hviol).
  destruct (ngeb (demon_energy self) delta || nleb delta nzero).
  - eexists _, _, _. split; [reflexivity|]. split; [|discriminate].
    intros _. split; reflexivity.
  - eexists _, _, _. split; [reflexivity|]. split; [discriminate|].
    intros _. split; reflexivity.
Qed.

(** C4: whatever the losses and the energies, a proposal with strictly more
    violations than the current result is rejected and one with strictly
    fewer is accepted; neither touches the solver or the world. *)
Theorem accept_move_violations_dominate delta prop curr self w :
  curr_result self = Some curr ->
  (viol_count curr < viol_count prop ->
     accept_move delta prop self w =
       Ret (self, w) (accept_entry delta self (Some false))) /\
  (viol_count prop < viol_count curr ->
     accept_move delta prop self w =
       Ret (self, w) (accept_entry delta self (Some true))).
Proof.
  intros Hcurr. unfold accept_move, accept_entry. rewrite Hcurr. split; intros Hlt.
  - destruct (Z.ltb_spec 0 (viol_count prop - viol_count curr)); [reflexivity|lia].
  - destruct (Z.ltb_spec 0 (viol_count prop - viol_count curr)); [lia|].
    destruct (Z.ltb_spec (viol_count prop - viol_count curr) 0); [reflexivity|lia].
Qed.

(** Rejection never changes the solver: every path of [accept_move] that
    answers [False] returns [self] as it received it. *)
Lemma accept_move_reject_keeps_self delta prop self w self' w' r :
  accept_move delta prop self w = Ret (self', w') r ->
  ar_accept r = Some false ->
  self' = self.
Proof.
  unfold accept_move. destruct (curr_result self) as [curr|]; [|discriminate].
  destruct (0 <? viol_count prop - viol_count curr).
  { intros [= <- <- <-] _. reflexivity. }
  destruct (viol_count prop - viol_count curr <? 0).
  { intros [= <- <- <-]. discriminate. }
  destruct (ngeb (demon_energy self) delta || nleb delta nzero).
  { intros [= <- <- <-]. discriminate. }
  destruct (uniform (w_rng w)) as [draw rng].
  destruct (nltb draw random_acceptance_chance); intros [= <- <- <-]; [discriminate|].
  reflexivity.
Qed.

(** C7: with equal violation counts, an energy difference that the demon
    cannot afford and a draw that is not below 0.01, a rejected move leaves
    every field of the solver, [demon_energy] included, as it was; and the
    move is rejected whenever it worsens the loss ([delta_energy <= 0]
    fails). *)
Theorem accept_move_reject_frame delta prop curr self w :
  curr_result self = Some curr ->
  viol_count prop = viol_count curr ->
  ngeb (demon_energy self) delta = false ->
  nltb (fst (uniform (w_rng w))) random_acceptance_chance = false ->
  exists self' w' a,
    accept_move delta prop self w = Ret (self', w') (accept_entry delta self a) /\
    (a = Some false -> self' = self /\ demon_energy self' = demon_energy self) /\
    (nleb delta nzero = false -> a = Some false).
Proof.
  intros Hcurr Hviol Hpoor Hdraw.
  rewrite (accept_move_soft _ _ _ _ _ Hcurr Hviol), Hpoor, Hdraw. cbn [orb].
  destruct (nleb delta nzero).
  - eexists _, _, _. split; [reflexivity|]. split; discriminate.
  - eexists _, _, _. split; [reflexivity|]. split; [|reflexivity].
    intros _. split; reflexivity.
Qed.

(** ** What each method leaves alone *)

(** [b] is [a] except for the fields that [step] works on before its
    bookkeeping: the memo, the demon's energy and the current result. *)
Definition frame (a b : Solver) : Prop :=
  max_invalid_candidates b = max_invalid_candidates a /\
  print_report_freq b = print_report_freq a /\
  initial_demon_energy_max b = initial_demon_energy_max a /\
  reduction_factor b = reduction_factor a /\
  demon_energy_max b = demon_energy_max a /\
  curr_iteration b = curr_iteration a /\
  stats b = stats a /\
  last_eval_result b = last_eval_result a.

Lemma frame_refl a : frame a a.
Proof. repeat split. Qed.

Lemma frame_trans a b c : frame a b -> frame b c -> frame a c.
Proof. unfold frame. intuition congruence. Qed.

Lemma set_eval_memo_id (self : Solver) : set_eval_memo (eval_memo self) self = self.
Proof. destruct self; reflexivity. Qed.

Lemma validate_lazy_eval_ret consgraph prop fd self w s u :
  validate_lazy_eval consgraph prop fd self w = Ret s u -> s = (self, w).
Proof.
  unfold validate_lazy_eval.
  destruct (evaluate_problem true consgraph (w_state w) fd ∅) as [real test_memo].
  destruct (neqb (loss real) (loss prop)); [intros [= <- _]; reflexivity|].
  destruct (report_out_of_sync _ _ _ _) as [w1 [key|]]; discriminate.
Qed.

(** A call of [_move] that returns has changed the memo only, and has
    evaluated the candidate once, after evicting for it when evaluation is
    lazy. *)
Lemma _move_ret consgraph m fd lazy validate self w self' w' r :
  _move consgraph m fd lazy validate self w = Ret (self', w') r ->
  self' = set_eval_memo (eval_memo self') self /\
  w_state w' = w_state w /\
  w_rng w' = w_rng w /\
  w_calls w' =
    w_calls w ++ (if lazy then [Evicted m; Evaluated m] else [Evaluated m]).
Proof.
  unfold _move. destruct lazy.
  - destruct (evaluate_problem false consgraph (w_state w) fd _) as [pr memo].
    destruct validate.
    + destruct (validate_lazy_eval _ _ _ _ _) as [s u| |] eqn:Hv; cbn [bind];
        try discriminate.
      apply validate_lazy_eval_ret in Hv. subst s. intros [= <- <- _].
      cbn. rewrite <- app_assoc. auto.
    + intros [= <- <- _]. cbn. rewrite <- app_assoc. auto.
  - destruct validate.
    + destruct (validate_lazy_eval _ _ _ _ _) as [s u| |] eqn:Hv; cbn [bind];
        try discriminate.
      apply validate_lazy_eval_ret in Hv. subst s. intros [= <- <- _].
      cbn. rewrite set_eval_memo_id. auto.
    + intros [= <- <- _]. cbn. rewrite set_eval_memo_id. auto.
Qed.

(** The retry loop changes nothing of the solver but the memo. *)
Lemma retry_loop_self fuel consgraph fd :
  forall gen idx move retry self w self' w' r,
    retry_loop fuel consgraph fd gen idx move retry self w = Ret (self', w') r ->
    self' = set_eval_memo (eval_memo self') self.
Proof.
  induction fuel as [|fuel IH]; intros gen idx move retry self w self' w' r;
    cbn [retry_loop]; [discriminate|].
  destruct (next gen (w_state w)) as [[m gen']|].
  2:{ intros [= <- _ _]. symmetry. apply set_eval_memo_id. }
  cbn [max_invalid_candidates].
  destruct (idx =? max_invalid_candidates self).
  { intros [= <- _ _]. symmetry. apply set_eval_memo_id. }
  cbn [w_state call]. destruct (apply m (w_state w)) as [[ok m1] s1]. destruct ok.
  - destruct (_move _ _ _ _ _ _ _) as [[s2 w2] res| |] eqn:Hm; cbn [bind];
      try discriminate.
    intros [= <- _ _]. apply _move_ret in Hm as (-> & _). reflexivity.
  - intros Hrun. apply IH in Hrun. rewrite Hrun. reflexivity.
Qed.

Lemma set_eval_memo_frame memo self : frame self (set_eval_memo memo self).
Proof. repeat split. Qed.

Lemma accept_move_frame delta prop self w self' w' r :
  accept_move delta prop self w = Ret (self', w') r -> frame self self'.
Proof.
  unfold accept_move. destruct (curr_result self) as [curr|]; [|discriminate].
  destruct (0 <? _). { intros [= <- _ _]. apply frame_refl. }
  destruct (_ <? 0). { intros [= <- _ _]. apply frame_refl. }
  destruct (_ || _). { intros [= <- _ _]. repeat split. }
  destruct (uniform (w_rng w)) as [draw rng].
  destruct (nltb draw random_acceptance_chance); intros [= <- _ _]; apply frame_refl.
Qed.

Lemma step_decide_frame fuel consgraph f fd self w self' w' r :
  step_decide fuel consgraph f fd self w = Ret (self', w') r -> frame self self'.
Proof.
  unfold step_decide, retry_attempt_proposals.
  set (seeded := seed_curr_result consgraph fd self w).
  assert (Hseed : frame self seeded).
  { subst seeded. unfold seed_curr_result.
    destruct (curr_result self); [apply frame_refl|repeat split]. }
  destruct (retry_loop _ _ _ _ _ _ _ _ _) as [[s1 w1] [[move prop] retry]| |] eqn:Hloop;
    cbn [bind]; try discriminate.
  apply retry_loop_self in Hloop.
  assert (Hs1 : frame self s1).
  { eapply frame_trans; [exact Hseed|]. rewrite Hloop. apply set_eval_memo_frame. }
  destruct prop as [prop|]; [|intros [= <- _ _]; exact Hs1].
  cbn [fst snd]. unfold calculate_delta_energy.
  destruct (curr_result s1) as [curr|]; cbn [bind fst snd]; [|discriminate].
  destruct (accept_move _ _ _ _) as [[s2 w2] ar| |] eqn:Hacc; cbn [bind];
    try discriminate.
  apply accept_move_frame in Hacc.
  destruct move as [m|]; [|discriminate].
  destruct (truthy (ar_accept ar)); intros [= <- _ _];
    (eapply frame_trans; [exact Hs1|]); (eapply frame_trans; [exact Hacc|]);
    repeat split.
Qed.

(** ** The energy ceiling *)

(** [update_demon_energy_max] sets the ceiling from the iteration counter
    and leaves the demon at or below it. *)
Lemma update_demon_energy_max_spec (self : Solver) :
  let self' := update_demon_energy_max self in
  demon_energy_max self' =
    nmul (initial_demon_energy_max self)
         (npow (reduction_factor self) (curr_iteration self)) /\
  ngtb (demon_energy self') (demon_energy_max self') = false /\
  demon_energy self' =
    (if ngtb (demon_energy self) (demon_energy_max self')
     then demon_energy_max self' else demon_energy self) /\
  curr_iteration self' = curr_iteration self /\
  initial_demon_energy_max self' = initial_demon_energy_max self /\
  reduction_factor self' = reduction_factor self.
Proof.
  cbv zeta. unfold update_demon_energy_max.
  cbn [demon_energy demon_energy_max set_demon_energy_max].
  destruct (ngtb (demon_energy self) _) eqn:Hgt; cbn; rewrite ?Hgt.
  - repeat split. unfold ngtb. apply nltb_irrefl.
  - repeat split.
Qed.

(** One completed [step]: the ceiling is the one of the iteration that just
    ran, the demon is at or below it, and the counter has advanced. *)
Lemma step_schedule fuel consgraph f fd self w self' w' :
  step fuel consgraph f fd self w = Ret (self', w') tt ->
  curr_iteration self' = curr_iteration self + 1 /\
  initial_demon_energy_max self' = initial_demon_energy_max self /\
  reduction_factor self' = reduction_factor self /\
  demon_energy_max self' =
    nmul (initial_demon_energy_max self)
         (npow (reduction_factor self) (curr_iteration self)) /\
  ngtb (demon_energy self') (demon_energy_max self') = false.
Proof.
  unfold step.
  destruct (step_decide _ _ _ _ _ _) as [[s1 w1] [[[move prop] retry] ar]| |] eqn:Hd;
    cbn [bind]; try discriminate.
  apply step_decide_frame in Hd.
  destruct Hd as (_ & _ & Himax & Hrf & _ & Hit & _ & _).
  pose proof (update_demon_energy_max_spec s1) as Hup. cbv zeta in Hup.
  destruct Hup as (Hmax & Hle & _ & Hit' & Himax' & Hrf').
  set (s2 := update_demon_energy_max s1) in *.
  assert (Hgoal : forall s3 : Solver,
             curr_iteration s3 = curr_iteration s2 ->
             initial_demon_energy_max s3 = initial_demon_energy_max s2 ->
             reduction_factor s3 = reduction_factor s2 ->
             demon_energy_max s3 = demon_energy_max s2 ->
             demon_energy s3 = demon_energy s2 ->
             forall s4 : Solver,
               s4 = match prop with
                    | Some _ =>
                      set_last_eval_result prop
                        (set_curr_iteration (curr_iteration s3 + 1) s3)
                    | None => set_curr_iteration (curr_iteration s3 + 1) s3
                    end ->
               curr_iteration s4 = curr_iteration self + 1 /\
               initial_demon_energy_max s4 = initial_demon_energy_max self /\
               reduction_factor s4 = reduction_factor self /\
               demon_energy_max s4 =
                 nmul (initial_demon_energy_max self)
                      (npow (reduction_factor self) (curr_iteration self)) /\
               ngtb (demon_energy s4) (demon_energy_max s4) = false).
  { intros s3 E1 E2 E3 E4 E5 s4 ->.
    destruct prop; cbn; rewrite ?E1, ?E2, ?E3, ?E4, ?E5;
      rewrite Hmax, Hit', Hit, Himax, Hrf; repeat split; try congruence;
      rewrite <- Hmax, <- Himax, <- Hrf, <- Hit; rewrite <- Hmax in Hle; exact Hle. }
  destruct (is_log_step self).
  - destruct (curr_result s2) as [curr|]; cbn [bind]; [|discriminate].
    intros [= <- _].
    apply (Hgoal (set_stats (stats s2 ++ [stat_row s2 curr (ar_accept ar) move retry]) s2));
      reflexivity.
  - cbn [bind]. intros [= <- _]. apply (Hgoal s2); reflexivity.
Qed.

(** C3 (as amended): [reset] puts the ceiling at [initial_demon_energy_max];
    after [k >= 1] completed iterations the ceiling is
    [initial_demon_energy_max * reduction_factor ** (k - 1)], the exponent
    being the iteration counter as it was when the last update ran; after
    every completed iteration the demon does not exceed the ceiling, the
    update having clamped it whenever it did. *)
Theorem demon_energy_max_after_steps self0 max_iters k self :
  after_steps self0 max_iters k self ->
  curr_iteration self = Z.of_nat k /\
  demon_energy_max self =
    match k with
    | O => initial_demon_energy_max self0
    | S j =>
      nmul (initial_demon_energy_max self0)
           (npow (reduction_factor self0) (Z.of_nat j))
    end /\
  (k <> 0%nat -> ngtb (demon_energy self) (demon_energy_max self) = false) /\
  (forall s : Solver,
     demon_energy (update_demon_energy_max s) =
       if ngtb (demon_energy s) (demon_energy_max (update_demon_energy_max s))
       then demon_energy_max (update_demon_energy_max s)
       else demon_energy s).
Proof.
  intros Hrun.
  assert (Hinv : curr_iteration self = Z.of_nat k /\
                 initial_demon_energy_max self = initial_demon_energy_max self0 /\
                 reduction_factor self = reduction_factor self0 /\
                 demon_energy_max self =
                   match k with
                   | O => initial_demon_energy_max self0
                   | S j =>
                     nmul (initial_demon_energy_max self0)
                          (npow (reduction_factor self0) (Z.of_nat j))
                   end /\
                 (k <> 0%nat ->
                  ngtb (demon_energy self) (demon_energy_max self) = false)).
  { induction Hrun as [|k fuel consgraph f fd self w self' w' Hrun IH Hstep].
    - cbn. repeat split. intros Hk. contradiction.
    - destruct IH as (Hit & Himax & Hrf & _ & _).
      apply step_schedule in Hstep.
      destruct Hstep as (Hit' & Himax' & Hrf' & Hmax' & Hle').
      rewrite Hmax' in Hle'.
      rewrite Hit', Himax', Hrf', Hmax', Hit, Himax, Hrf.
      rewrite Hit, Himax, Hrf in Hle'.
      repeat split; [lia|]. intros _. exact Hle'. }
  destruct Hinv as (Hit & _ & _ & Hmax & Hle).
  repeat split; try assumption.
  intros s. pose proof (update_demon_energy_max_spec s) as Hs. cbv zeta in Hs.
  apply Hs.
Qed.

(** ** The lazy-evaluation cross check *)

(** A traversed node whose entry in the shared memo differs from the entry
    that the evaluation from scratch computed. *)
Definition out_of_sync (shared test_memo : gmap Key Val) (n : Node) : bool :=
  match shared !! memo_key n, test_memo !! memo_key n with
  | Some lazy, Some fresh => negb (val_eqb fresh lazy)
  | _, _ => false
  end.

(** Every traversed key of the shared memo is a key of the fresh memo, so
    that [test_memo[key]] finds its entry. *)
Definition memo_covered (shared test_memo : gmap Key Val) (nodes : list Node) : Prop :=
  forall n, In n nodes ->
    is_Some (shared !! memo_key n) -> is_Some (test_memo !! memo_key n).

(** The reporting loop only adds reports to the log of calls. *)
Lemma report_out_of_sync_calls shared test_memo nodes :
  forall w,
    exists reported,
      fst (report_out_of_sync shared test_memo nodes w) =
        mkWorld (w_state w) (w_rng w) (w_calls w ++ map Reported reported).
Proof.
  induction nodes as [|n nodes IH]; intros w; cbn [report_out_of_sync].
  - exists []. cbn. rewrite app_nil_r. destruct w; reflexivity.
  - destruct (shared !! memo_key n) as [lazy|]; [|apply IH].
    destruct (test_memo !! memo_key n) as [fresh|].
    2:{ exists []. cbn. rewrite app_nil_r. destruct w; reflexivity. }
    destruct (val_eqb fresh lazy); [apply IH|].
    destruct (IH (call (Reported n) w)) as [reported Hrep].
    exists (n :: reported). rewrite Hrep. cbn. rewrite <- app_assoc. reflexivity.
Qed.

(** When every lookup succeeds, the loop reports exactly the nodes that are
    out of sync, in traversal order. *)
Lemma report_out_of_sync_covered shared test_memo nodes :
  memo_covered shared test_memo nodes ->
  forall w,
    report_out_of_sync shared test_memo nodes w =
      (mkWorld (w_state w) (w_rng w)
         (w_calls w ++
          map Reported (List.filter (out_of_sync shared test_memo) nodes)),
       None).
Proof.
  induction nodes as [|n nodes IH]; intros Hcov w; cbn [report_out_of_sync List.filter].
  - cbn. rewrite app_nil_r. destruct w; reflexivity.
  - assert (Hcov' : memo_covered shared test_memo nodes).
    { intros n' Hin. apply Hcov. right. exact Hin. }
    specialize (IH Hcov'). unfold out_of_sync at 1.
    pose proof (Hcov n (or_introl eq_refl)) as Hn.
    destruct (shared !! memo_key n) as [lazy|]; [|apply IH].
    destruct Hn as [fresh Hfresh]; [eexists; reflexivity|]. rewrite Hfresh.
    destruct (val_eqb fresh lazy); cbn [negb]; [apply IH|].
    rewrite IH. cbn. rewrite <- app_assoc. reflexivity.
Qed.

(** C8: with validation enabled, [_move] returns a result only if its loss
    equals the loss of the evaluation from scratch; [validate_lazy_eval]
    returns normally exactly when the two losses are equal, and otherwise
    raises, leaving the solver as it was.  When the memo computed from
    scratch has an entry for every traversed key of the shared memo, what it
    raises is [ValueError] with the two losses, after one report for each
    traversed entry that is out of sync. *)
Theorem validate_lazy_eval_spec consgraph prop fd self w :
  let real := fst (evaluate_problem true consgraph (w_state w) fd ∅) in
  let test_memo := snd (evaluate_problem true consgraph (w_state w) fd ∅) in
  (neqb (loss real) (loss prop) = true ->
     validate_lazy_eval consgraph prop fd self w = Ret (self, w) tt) /\
  (forall s u, validate_lazy_eval consgraph prop fd self w = Ret s u ->
     neqb (loss real) (loss prop) = true) /\
  (neqb (loss real) (loss prop) = false ->
     exists w' e, validate_lazy_eval consgraph prop fd self w = Raise (self, w') e) /\
  (neqb (loss real) (loss prop) = false ->
   memo_covered (eval_memo self) test_memo (traverse consgraph) ->
     validate_lazy_eval consgraph prop fd self w =
       Raise (self,
              mkWorld (w_state w) (w_rng w)
                (w_calls w ++
                 map Reported
                   (List.filter (out_of_sync (eval_memo self) test_memo)
                      (traverse consgraph))))
             (ValueError (loss real) (loss prop))) /\
  (forall m lazy s r,
     _move consgraph m fd lazy true self w = Ret s r ->
     neqb (loss real) (loss r) = true).
Proof.
  cbv zeta. unfold validate_lazy_eval.
  assert (Hmove : forall m lazy s r,
             _move consgraph m fd lazy true self w = Ret s r ->
             neqb (loss (fst (evaluate_problem true consgraph (w_state w) fd ∅)))
                  (loss r) = true).
  { intros m lazy s r. unfold _move, validate_lazy_eval.
    destruct lazy.
    - destruct (evaluate_problem false consgraph (w_state w) fd _) as [pr memo].
      cbn [w_state call].
      destruct (evaluate_problem true consgraph (w_state w) fd ∅) as [real tm].
      cbn [fst]. destruct (neqb (loss real) (loss pr)) eqn:Heq.
      + cbn [bind]. intros [= _ <-]. exact Heq.
      + destruct (report_out_of_sync _ _ _ _) as [w1 [key|]]; discriminate.
    - cbn [w_state call].
      destruct (evaluate_problem true consgraph (w_state w) fd ∅) as [real tm].
      cbn [fst]. destruct (neqb (loss real) _) eqn:Heq.
      + cbn [bind]. intros [= _ <-]. exact Heq.
      + destruct (report_out_of_sync _ _ _ _) as [w1 [key|]]; discriminate. }
  destruct (evaluate_problem true consgraph (w_state w) fd ∅) as [real tm].
  cbn [fst snd] in *.
  destruct (neqb (loss real) (loss prop)) eqn:Heq.
  - repeat split; try discriminate; try reflexivity. exact Hmove.
  - split; [discriminate|]. split.
    { intros s u.
      destruct (report_out_of_sync _ _ _ _) as [w1 [key|]]; discriminate. }
    split.
    { intros _.
      destruct (report_out_of_sync _ _ _ _) as [w1 [key|]]; eexists _, _; reflexivity. }
    split; [|exact Hmove].
    intros _ Hcov. rewrite (report_out_of_sync_covered _ _ _ Hcov). reflexivity.
Qed.

(** ** The retry loop *)

(** The calls that [_move] makes for a candidate. *)
Definition move_calls (lazy : bool) (m : Move) : list (Call Move Node) :=
  if lazy then [Evicted m; Evaluated m] else [Evaluated m].

(** The shape of the calls of one run of the loop that starts with the
    counter at [idx]: failed candidates, each pulled, applied, evicted for
    and reverted, and then the generator is exhausted, or the bound [max]
    stops the loop after one more pull, or a candidate applies and is
    evaluated. *)
Inductive loop_trace (max : Z) (lazy : bool) : Z -> list (Call Move Node) -> Prop :=
| lt_exhausted idx : loop_trace max lazy idx []
| lt_bound m : loop_trace max lazy max [Pulled m]
| lt_success idx m m1 reported :
    idx <> max ->
    loop_trace max lazy idx
      (Pulled m :: Applied m1 true :: Evicted m1 ::
       move_calls lazy m1 ++ map Reported reported)
| lt_fail idx m m1 tr :
    idx <> max ->
    loop_trace max lazy (idx + 1) tr ->
    loop_trace max lazy idx
      (Pulled m :: Applied m1 false :: Evicted m1 :: Reverted m1 :: tr).

(** The runs that end without a valid move, with the loop variables [move]
    and [retry] before and after. *)
Inductive none_run (max : Z)
  : Z -> option Move -> option Z -> list (Call Move Node) ->
    option Move -> option Z -> Prop :=
| nr_exhausted idx move retry : none_run max idx move retry [] move retry
| nr_bound move retry m :
    none_run max max move retry [Pulled m] (Some m) (Some max)
| nr_fail idx move retry m m1 tr mv rt :
    idx <> max ->
    none_run max (idx + 1) (Some m1) (Some idx) tr mv rt ->
    none_run max idx move retry
      (Pulled m :: Applied m1 false :: Evicted m1 :: Reverted m1 :: tr) mv rt.

Lemma validate_lazy_eval_state consgraph prop fd self w :
  exists reported,
    outcome_state (validate_lazy_eval consgraph prop fd self w) =
      Some (self, mkWorld (w_state w) (w_rng w) (w_calls w ++ map Reported reported)).
Proof.
  unfold validate_lazy_eval.
  destruct (evaluate_problem true consgraph (w_state w) fd ∅) as [real tm].
  destruct (neqb (loss real) (loss prop)).
  { exists []. cbn. rewrite app_nil_r. destruct w; reflexivity. }
  destruct (report_out_of_sync_calls (eval_memo self) tm (traverse consgraph) w)
    as [reported Hrep].
  exists reported.
  destruct (report_out_of_sync _ _ _ _) as [w1 [key|]]; cbn in *; subst w1; reflexivity.
Qed.

(** [_move] always ends; it leaves the state alone and logs the evaluation
    of the candidate, followed by the reports of the cross check, if any. *)
Lemma _move_outcome consgraph m fd lazy validate self w :
  exists self' w' reported,
    outcome_state (_move consgraph m fd lazy validate self w) = Some (self', w') /\
    w_state w' = w_state w /\
    w_rng w' = w_rng w /\
    w_calls w' = w_calls w ++ move_calls lazy m ++ map Reported reported.
Proof.
  unfold _move, move_calls. destruct lazy.
  - destruct (evaluate_problem false consgraph (w_state w) fd _) as [pr memo].
    destruct validate.
    + destruct (validate_lazy_eval_state consgraph pr fd (set_eval_memo memo self)
                  (call (Evaluated m) (call (Evicted m) w))) as [reported Hv].
      destruct (validate_lazy_eval _ _ _ _ _) as [s u|s e|]; cbn in Hv |- *;
        try discriminate; injection Hv as ->;
        eexists _, _, reported; (split; [reflexivity|]); cbn;
        rewrite <- !app_assoc; auto.
    + eexists _, _, []. split; [reflexivity|]. cbn. rewrite <- !app_assoc. auto.
  - destruct validate.
    + destruct (validate_lazy_eval_state consgraph
                  (fst (evaluate_problem false consgraph (w_state w) fd ∅)) fd self
                  (call (Evaluated m) w)) as [reported Hv].
      destruct (validate_lazy_eval _ _ _ _ _) as [s u|s e|]; cbn in Hv |- *;
        try discriminate; injection Hv as ->;
        eexists _, _, reported; (split; [reflexivity|]); cbn;
        rewrite <- !app_assoc; auto.
    + eexists _, _, []. split; [reflexivity|]. cbn. auto.
Qed.

(** Every run of the loop that ends has the shape [loop_trace]; it returns
    without a result exactly when no candidate applied. *)
Lemma retry_loop_run fuel consgraph fd :
  forall gen idx move retry self w s',
    outcome_state (retry_loop fuel consgraph fd gen idx move retry self w) = Some s' ->
    exists tr,
      w_calls (snd s') = w_calls w ++ tr /\
      w_rng (snd s') = w_rng w /\
      loop_trace (max_invalid_candidates self) (do_lazy_eval gin) idx tr /\
      ((exists mv rt,
          retry_loop fuel consgraph fd gen idx move retry self w =
            Ret s' (mv, None, rt) /\
          none_run (max_invalid_candidates self) idx move retry tr mv rt) \/
       ((exists m, In (Applied m true) tr) /\
        forall mv rt,
          retry_loop fuel consgraph fd gen idx move retry self w <>
            Ret s' (mv, None, rt))).
Proof.
  induction fuel as [|fuel IH]; intros gen idx move retry self w s';
    cbn [retry_loop]; [discriminate|].
  destruct (next gen (w_state w)) as [[m gen']|].
  2:{ intros [= <-]. exists []. cbn [snd]. rewrite app_nil_r.
      repeat split; [constructor|]. left. eexists _, _. split; [reflexivity|constructor]. }
  destruct (Z.eqb_spec idx (max_invalid_candidates self)) as [->|Hne].
  { intros [= <-]. exists [Pulled m]. cbn [snd call w_calls w_rng].
    repeat split; [constructor|]. left. eexists _, _. split; [reflexivity|constructor]. }
  cbn [w_state call]. destruct (apply m (w_state w)) as [[ok m1] s1]. destruct ok.
  - match goal with
    | |- context [_move ?g ?mv ?d ?l ?v ?sf ?wd] =>
      destruct (_move_outcome g mv d l v sf wd)
        as (self2 & w2 & reported & Hout & _ & Hrng & Hcalls)
    end.
    destruct (_move _ _ _ _ _ _ _) as [s2 res|s2 e|]; cbn in Hout; try discriminate;
      injection Hout as ->; cbn [bind outcome_state]; intros [= <-];
      exists (Pulled m :: Applied m1 true :: Evicted m1 ::
              move_calls (do_lazy_eval gin) m1 ++ map Reported reported);
      cbn [snd]; rewrite Hcalls, Hrng; cbn; rewrite <- !app_assoc; cbn;
      (repeat split; [constructor; exact Hne|]); right;
      (split; [exists m1; right; left; reflexivity|]); intros mv rt; discriminate.
  - intros Hrun. apply IH in Hrun. destruct Hrun as (tr & Hcalls & Hrng & Htr & Hres).
    exists (Pulled m :: Applied m1 false :: Evicted m1 :: Reverted m1 :: tr).
    rewrite Hcalls, Hrng. cbn. rewrite <- !app_assoc. cbn.
    repeat split; [constructor; assumption|].
    destruct Hres as [(mv & rt & Heq & Hnone)|((m2 & Hin) & Hneq)].
    + left. exists mv, rt. split; [exact Heq|]. constructor; assumption.
    + right. split; [exists m2; do 4 right; exact Hin|exact Hneq].
Qed.

(** With the counter at most at the bound, fuel for the remaining
    candidates and the last pull is enough for the loop to end. *)
Lemma retry_loop_terminates fuel consgraph fd :
  forall gen idx move retry self w,
    idx <= max_invalid_candidates self ->
    max_invalid_candidates self - idx < Z.of_nat fuel ->
    outcome_state (retry_loop fuel consgraph fd gen idx move retry self w) <> None.
Proof.
  induction fuel as [|fuel IH]; intros gen idx move retry self w Hle Hfuel;
    cbn [retry_loop]; [lia|].
  destruct (next gen (w_state w)) as [[m gen']|]; [|discriminate].
  destruct (Z.eqb_spec idx (max_invalid_candidates self)) as [->|Hne]; [discriminate|].
  cbn [w_state call]. destruct (apply m (w_state w)) as [[ok m1] s1]. destruct ok.
  - match goal with
    | |- context [_move ?g ?mv ?d ?l ?v ?sf ?wd] =>
      destruct (_move_outcome g mv d l v sf wd) as (self2 & w2 & reported & Hout & _)
    end.
    destruct (_move _ _ _ _ _ _ _) as [s2 res|s2 e|]; cbn in Hout |- *; discriminate.
  - apply IH; cbn [max_invalid_candidates set_eval_memo]; lia.
Qed.

(** *** Counting calls *)

Lemma count_calls_cons p (c : Call Move Node) l :
  count_calls p (c :: l) = (if p c then 1 else 0) + count_calls p l.
Proof. unfold count_calls. cbn [List.filter]. destruct (p c); cbn [length]; lia. Qed.

Lemma count_calls_app p (l1 l2 : list (Call Move Node)) :
  count_calls p (l1 ++ l2) = count_calls p l1 + count_calls p l2.
Proof.
  induction l1 as [|c l1 IH]; [reflexivity|].
  cbn [app]. rewrite !count_calls_cons, IH. lia.
Qed.

Lemma count_calls_reported p (nodes : list Node) :
  (forall n, p (Reported n) = false) ->
  count_calls p (map Reported nodes) = 0.
Proof.
  intros Hp. induction nodes as [|n nodes IH]; [reflexivity|].
  cbn [map]. rewrite count_calls_cons, Hp, IH. reflexivity.
Qed.

Lemma loop_trace_counts max lazy idx tr :
  loop_trace max lazy idx tr ->
  idx <= max ->
  count_calls is_pulled tr <= max - idx + 1 /\
  count_calls is_applied tr <= max - idx /\
  count_calls is_evaluated tr <= count_calls is_applied tr /\
  count_calls is_evaluated tr <= 1.
Proof.
  induction 1 as [idx|m|idx m m1 reported Hne|idx m m1 tr Hne Htr IH]; intros Hle.
  - unfold count_calls. cbn. lia.
  - unfold count_calls. cbn. lia.
  - rewrite !count_calls_cons, !count_calls_app, !count_calls_reported by reflexivity.
    destruct lazy; unfold count_calls; cbn; lia.
  - rewrite !count_calls_cons. cbn [is_pulled is_applied is_evaluated].
    destruct IH as (? & ? & ? & ?); lia.
Qed.

(** C5 (as amended): with a bound that is not negative, one call of
    [retry_attempt_proposals] ends for every generator, finite or not; it
    pulls at most [max_invalid_candidates + 1] candidates (the last pull is
    what lets the loop see that the bound is reached), applies at most
    [max_invalid_candidates] of them and evaluates at most one, never more
    than it applied. *)
Theorem retry_attempt_proposals_bound fuel propose_func consgraph temp fd self w :
  0 <= max_invalid_candidates self ->
  max_invalid_candidates self < Z.of_nat fuel ->
  exists s' tr,
    outcome_state
      (retry_attempt_proposals fuel propose_func consgraph temp fd self w) = Some s' /\
    w_calls (snd s') = w_calls w ++ tr /\
    count_calls is_pulled tr <= max_invalid_candidates self + 1 /\
    count_calls is_applied tr <= max_invalid_candidates self /\
    count_calls is_evaluated tr <= count_calls is_applied tr /\
    count_calls is_evaluated tr <= 1.
Proof.
  intros Hmax Hfuel. unfold retry_attempt_proposals.
  set (gen := propose_func consgraph (w_state w) fd temp).
  pose proof (retry_loop_terminates fuel consgraph fd gen 0 None None self w) as Hterm.
  destruct (outcome_state (retry_loop fuel consgraph fd gen 0 None None self w))
    as [s'|] eqn:Hout.
  2:{ exfalso. apply Hterm; [lia|lia|reflexivity]. }
  apply retry_loop_run in Hout. destruct Hout as (tr & Hcalls & _ & Htr & _).
  exists s', tr. split; [reflexivity|]. split; [exact Hcalls|].
  apply loop_trace_counts in Htr; [|lia].
  destruct Htr as (? & ? & ? & ?). repeat split; lia.
Qed.

(** *** Failed candidates *)

Lemma loop_trace_head max lazy idx tr :
  loop_trace max lazy idx tr ->
  tr = [] \/ exists m rest, tr = Pulled m :: rest.
Proof. destruct 1; [left; reflexivity|right; eexists _, _; reflexivity..]. Qed.

Lemma loop_trace_failed max lazy idx tr :
  loop_trace max lazy idx tr ->
  forall pre m post,
    tr = pre ++ Applied m false :: post ->
    exists rest,
      post = Evicted m :: Reverted m :: rest /\
      (rest = [] \/ exists m2 rest', rest = Pulled m2 :: rest').
Proof.
  induction 1 as [idx|m0|idx m0 m1 reported Hne|idx m0 m1 tr Hne Htr IH];
    intros pre m post Heq.
  - destruct pre; discriminate.
  - destruct pre as [|c [|c' pre]]; discriminate.
  - exfalso.
    assert (Hin : In (Applied m false)
                    (Pulled m0 :: Applied m1 true :: Evicted m1 ::
                     move_calls lazy m1 ++ map Reported reported)).
    { rewrite Heq. apply in_or_app. right. left. reflexivity. }
    destruct Hin as [Hin|[Hin|[Hin|Hin]]]; try discriminate.
    apply in_app_or in Hin. destruct Hin as [Hin|Hin].
    + destruct lazy; cbn in Hin; intuition discriminate.
    + apply in_map_iff in Hin. destruct Hin as (n & Hn & _). discriminate.
  - destruct pre as [|c1 [|c2 [|c3 [|c4 pre]]]]; try discriminate.
    + cbn in Heq. inversion Heq; subst. exists tr. split; [reflexivity|].
      eapply loop_trace_head. exact Htr.
    + cbn in Heq. inversion Heq; subst. eapply IH. reflexivity.
Qed.

(** C9: in every run of the retry loop, a candidate whose [apply] returned
    false has the memo evicted for it and is then reverted, before anything
    else happens; the next call, if any, is the pull of the next candidate.
    The iteration evicts with the state as [apply] left it and gives the
    loop the state that [revert] returns. *)
Theorem failed_apply_evicted_then_reverted fuel propose_func consgraph temp fd self w :
  (forall s',
     outcome_state
       (retry_attempt_proposals fuel propose_func consgraph temp fd self w) = Some s' ->
     exists tr,
       w_calls (snd s') = w_calls w ++ tr /\
       forall pre m post,
         tr = pre ++ Applied m false :: post ->
         exists rest,
           post = Evicted m :: Reverted m :: rest /\
           (rest = [] \/ exists m2 rest', rest = Pulled m2 :: rest')) /\
  (forall gen idx move retry m gen' m1 s1,
     next gen (w_state w) = Some (m, gen') ->
     idx <> max_invalid_candidates self ->
     apply m (w_state w) = (false, m1, s1) ->
     retry_loop (S fuel) consgraph fd gen idx move retry self w =
       retry_loop fuel consgraph fd gen' (idx + 1) (Some m1) (Some idx)
         (set_eval_memo (evict_memo_for_move consgraph s1 (eval_memo self) m1) self)
         (mkWorld (revert m1 s1) (w_rng w)
            (w_calls w ++ [Pulled m; Applied m1 false; Evicted m1; Reverted m1]))).
Proof.
  split.
  - intros s' Hout. unfold retry_attempt_proposals in Hout.
    apply retry_loop_run in Hout. destruct Hout as (tr & Hcalls & _ & Htr & _).
    exists tr. split; [exact Hcalls|]. eapply loop_trace_failed. exact Htr.
  - intros gen idx move retry m gen' m1 s1 Hnext Hne Happly.
    cbn [retry_loop]. rewrite Hnext.
    destruct (Z.eqb_spec idx (max_invalid_candidates self)) as [Heq|_]; [contradiction|].
    cbn [w_state call]. rewrite Happly. unfold call, set_state.
    cbn [w_state w_rng w_calls]. rewrite <- !app_assoc. reflexivity.
Qed.

(** *** Runs without a valid move *)

Lemma none_run_last max idx move retry tr mv rt :
  none_run max idx move retry tr mv rt ->
  (tr = [] /\ mv = move /\ rt = retry) \/
  (exists m,
     (last tr = Some (Reverted m) \/ last tr = Some (Pulled m)) /\
     mv = Some m /\
     rt = Some (idx + count_calls is_pulled tr - 1)).
Proof.
  induction 1 as [idx move retry|move retry m|idx move retry m m1 tr mv rt Hne Hrun IH].
  - left. repeat split.
  - right. exists m. split; [right; reflexivity|]. split; [reflexivity|].
    unfold count_calls. cbn. f_equal. lia.
  - right. rewrite !count_calls_cons. cbn [is_pulled].
    destruct IH as [(-> & -> & ->)|(m2 & Hlast & -> & ->)].
    + exists m1. split; [left; reflexivity|]. split; [reflexivity|].
      unfold count_calls. cbn. f_equal. lia.
    + exists m2. split; [|split; [reflexivity|f_equal; lia]].
      destruct tr as [|c tr]; [destruct Hlast; discriminate|].
      rewrite !last_cons_cons. exact Hlast.
Qed.

(** C1 (as amended): with a bound that is not negative the retry loop ends;
    when no candidate applied it returns without a result; and whenever it
    returns without a result, the triple is [(move, None, retry)] where
    [move] is the last candidate pulled (as its failed [apply] and [revert]
    left it, or untouched when the bound stopped the loop) and [retry] is
    its index, counted from 0; both are [None] when the generator produced
    nothing. *)
Theorem retry_attempt_proposals_no_valid_move
    fuel propose_func consgraph temp fd self w :
  (0 <= max_invalid_candidates self ->
   max_invalid_candidates self < Z.of_nat fuel ->
   outcome_state
     (retry_attempt_proposals fuel propose_func consgraph temp fd self w) <> None) /\
  (forall s',
     outcome_state
       (retry_attempt_proposals fuel propose_func consgraph temp fd self w) = Some s' ->
     exists tr,
       w_calls (snd s') = w_calls w ++ tr /\
       ((forall m, ~ In (Applied m true) tr) ->
        exists mv rt,
          retry_attempt_proposals fuel propose_func consgraph temp fd self w =
            Ret s' (mv, None, rt)) /\
       (forall mv rt,
          retry_attempt_proposals fuel propose_func consgraph temp fd self w =
            Ret s' (mv, None, rt) ->
          (tr = [] /\ mv = None /\ rt = None) \/
          (exists m,
             (last tr = Some (Reverted m) \/ last tr = Some (Pulled m)) /\
             mv = Some m /\
             rt = Some (count_calls is_pulled tr - 1)))).
Proof.
  unfold retry_attempt_proposals. split.
  - intros Hmax Hfuel. apply retry_loop_terminates; lia.
  - intros s' Hout. apply retry_loop_run in Hout.
    destruct Hout as (tr & Hcalls & _ & _ & Hres).
    exists tr. split; [exact Hcalls|]. split.
    + intros Hfail.
      destruct Hres as [(mv & rt & Heq & _)|((m & Hin) & _)].
      * exists mv, rt. exact Heq.
      * exfalso. exact (Hfail m Hin).
    + intros mv rt Heq.
      destruct Hres as [(mv' & rt' & Heq' & Hnone)|(_ & Hneq)].
      * rewrite Heq in Heq'. injection Heq' as <- <-.
        apply none_run_last in Hnone. exact Hnone.
      * exfalso. exact (Hneq mv rt Heq).
Qed.

(** ** Whole iterations *)

Lemma seed_curr_result_demon_energy consgraph fd self w :
  demon_energy (seed_curr_result consgraph fd self w) = demon_energy self.
Proof. unfold seed_curr_result. destruct (curr_result self); reflexivity. Qed.

Lemma seed_curr_result_is_Some consgraph fd self w :
  exists curr, curr_result (seed_curr_result consgraph fd self w) = Some curr.
Proof.
  unfold seed_curr_result. destruct (curr_result self) eqn:Hcurr; eexists.
  - exact Hcurr.
  - reflexivity.
Qed.

Lemma seed_curr_result_keeps consgraph fd self w curr :
  curr_result self = Some curr ->
  seed_curr_result consgraph fd self w = self.
Proof. unfold seed_curr_result. intros ->. reflexivity. Qed.

Lemma update_demon_energy_max_curr_result (self : Solver) :
  curr_result (update_demon_energy_max self) = curr_result self /\
  stats (update_demon_energy_max self) = stats self /\
  last_eval_result (update_demon_energy_max self) = last_eval_result self.
Proof.
  unfold update_demon_energy_max.
  destruct (ngtb _ _); repeat split.
Qed.

(** C10: when the generator yields nothing, [retry_attempt_proposals]
    returns [(None, None, None)] and touches nothing; [step] then takes the
    null acceptance entry, leaves the state, the generator of random numbers
    and the log of calls as they were, keeps the current result (the seeded
    one, on a first iteration), records a row with no acceptance, move or
    retry if this is a log step, and advances the iteration counter. *)
Theorem empty_generator_iteration fuel propose_func consgraph fd self w :
  next (propose_func consgraph (w_state w) fd (demon_energy self)) (w_state w) = None ->
  let seeded := seed_curr_result consgraph fd self w in
  retry_attempt_proposals (S fuel) propose_func consgraph (demon_energy self) fd
    seeded w = Ret (seeded, w) (None, None, None) /\
  step_decide (S fuel) consgraph propose_func fd self w =
    Ret (seeded, w) (None, None, None, null_accept_result) /\
  ar_accept null_accept_result = None /\
  exists self' curr,
    step (S fuel) consgraph propose_func fd self w = Ret (self', w) tt /\
    curr_result seeded = Some curr /\
    curr_result self' = Some curr /\
    (forall c, curr_result self = Some c -> curr_result self' = Some c) /\
    curr_iteration self' = curr_iteration self + 1 /\
    stats self' =
      stats self ++
      (if is_log_step self
       then [stat_row (update_demon_energy_max seeded) curr None None None]
       else []).
Proof.
  intros Hempty seeded.
  assert (Hretry :
            retry_attempt_proposals (S fuel) propose_func consgraph
              (demon_energy self) fd seeded w = Ret (seeded, w) (None, None, None)).
  { unfold retry_attempt_proposals. cbn [retry_loop]. rewrite Hempty. reflexivity. }
  assert (Hdecide :
            step_decide (S fuel) consgraph propose_func fd self w =
              Ret (seeded, w) (None, None, None, null_accept_result)).
  { unfold step_decide. cbv zeta. rewrite seed_curr_result_demon_energy.
    fold seeded. rewrite Hretry. reflexivity. }
  split; [exact Hretry|]. split; [exact Hdecide|]. split; [reflexivity|].
  destruct (seed_curr_result_is_Some consgraph fd self w) as [curr Hcurr].
  fold seeded in Hcurr.
  pose proof (update_demon_energy_max_curr_result seeded) as (Hupd & Hstats & _).
  assert (Hframe : frame self seeded).
  { subst seeded. unfold seed_curr_result.
    destruct (curr_result self); [apply frame_refl|repeat split]. }
  destruct Hframe as (_ & _ & _ & _ & _ & Hit & Hst & _).
  assert (Hupd_it : curr_iteration (update_demon_energy_max seeded) = curr_iteration self).
  { pose proof (update_demon_energy_max_spec seeded) as Hs. cbv zeta in Hs.
    destruct Hs as (_ & _ & _ & -> & _). exact Hit. }
  assert (Hkeep : forall c, curr_result self = Some c -> Some curr = Some c).
  { intros c Hc. rewrite <- Hcurr. subst seeded.
    rewrite (seed_curr_result_keeps _ _ _ _ _ Hc). exact Hc. }
  unfold step. rewrite Hdecide. cbn [bind]. rewrite Hupd, Hcurr.
  destruct (is_log_step self); cbn [bind].
  - eexists _, curr. split; [reflexivity|]. cbn.
    rewrite ?Hupd_it, ?Hupd, ?Hcurr, ?Hstats, ?Hst.
    repeat split; try assumption; reflexivity.
  - eexists _, curr. split; [reflexivity|]. cbn.
    rewrite ?Hupd_it, ?Hupd, ?Hcurr, ?Hstats, ?Hst, ?app_nil_r.
    repeat split; try assumption; reflexivity.
Qed.

(** *** The state after an iteration *)

(** The retry loop hands back either the state it started from, without a
    result, or the state as a successful [apply] on that state left it,
    with the move that produced it. *)
Lemma retry_loop_state fuel consgraph fd :
  (forall m s ok m1 s1, apply m s = (ok, m1, s1) -> revert m1 s1 = s) ->
  forall gen idx move retry self w self' w' mv res rt,
    retry_loop fuel consgraph fd gen idx move retry self w =
      Ret (self', w') (mv, res, rt) ->
    match res with
    | None => w_state w' = w_state w
    | Some _ =>
      exists m m1, apply m (w_state w) = (true, m1, w_state w') /\ mv = Some m1
    end.
Proof.
  intros Hrev.
  induction fuel as [|fuel IH]; intros gen idx move retry self w self' w' mv res rt;
    cbn [retry_loop]; [discriminate|].
  destruct (next gen (w_state w)) as [[m gen']|].
  2:{ intros [= _ <- _ <- _]. reflexivity. }
  destruct (idx =? max_invalid_candidates self).
  { intros [= _ <- _ <- _]. reflexivity. }
  cbn [w_state call]. destruct (apply m (w_state w)) as [[ok m1] s1] eqn:Happly.
  destruct ok.
  - destruct (_move _ _ _ _ _ _ _) as [[s2 w2] r| |] eqn:Hm; cbn [bind];
      try discriminate.
    intros [= _ <- <- <- _]. apply _move_ret in Hm as (_ & Hst & _).
    exists m, m1. rewrite Hst. cbn. split; [exact Happly|reflexivity].
  - intros Hrun. apply IH in Hrun. cbn [w_state call set_state] in Hrun.
    rewrite (Hrev _ _ _ _ _ Happly) in Hrun. exact Hrun.
Qed.

Lemma retry_loop_curr_result fuel consgraph fd gen idx move retry self w self' w' r :
  retry_loop fuel consgraph fd gen idx move retry self w = Ret (self', w') r ->
  curr_result self' = curr_result self.
Proof. intros Hrun. apply retry_loop_self in Hrun. rewrite Hrun. reflexivity. Qed.

Lemma accept_move_world delta prop self w self' w' r :
  accept_move delta prop self w = Ret (self', w') r ->
  w_state w' = w_state w /\ curr_result self' = curr_result self.
Proof.
  unfold accept_move. destruct (curr_result self) as [curr|] eqn:Hcurr; [|discriminate].
  destruct (0 <? _). { intros [= <- <- _]. auto. }
  destruct (_ <? 0). { intros [= <- <- _]. auto. }
  destruct (_ || _). { intros [= <- <- _]. cbn. auto. }
  destruct (uniform (w_rng w)) as [draw rng].
  destruct (nltb draw random_acceptance_chance); intros [= <- <- _]; cbn; auto.
Qed.

Lemma step_decide_state fuel consgraph propose_func fd self w s1 w1 move prop retry ar :
  (forall m s ok m1 s1, apply m s = (ok, m1, s1) -> revert m1 s1 = s) ->
  step_decide fuel consgraph propose_func fd self w =
    Ret (s1, w1) (move, prop, retry, ar) ->
  (w_state w1 = w_state w /\
   curr_result s1 = curr_result (seed_curr_result consgraph fd self w)) \/
  (exists m m1 st r,
     apply m (w_state w) = (true, m1, st) /\
     w_state w1 = accept m1 st /\
     curr_result s1 = Some r /\
     prop = Some r).
Proof.
  intros Hrev. unfold step_decide, retry_attempt_proposals. cbv zeta.
  set (seeded := seed_curr_result consgraph fd self w).
  destruct (retry_loop _ _ _ _ _ _ _ _ _) as [[s2 w2] [[mv res] rt]| |] eqn:Hloop;
    cbn [bind]; try discriminate.
  pose proof (retry_loop_state _ _ _ Hrev _ _ _ _ _ _ _ _ _ _ _ Hloop) as Hst.
  pose proof (retry_loop_curr_result _ _ _ _ _ _ _ _ _ _ _ _ Hloop) as Hcr.
  destruct res as [pr|].
  2:{ intros [= <- <- _ _ _ _]. left. split; assumption. }
  destruct Hst as (m & m1 & Happly & ->).
  cbn [fst snd]. unfold calculate_delta_energy.
  destruct (curr_result s2) as [curr|] eqn:Hcs2; cbn [bind fst snd]; [|discriminate].
  destruct (accept_move _ _ _ _) as [[s3 w3] a| |] eqn:Hacc; cbn [bind];
    try discriminate.
  apply accept_move_world in Hacc. destruct Hacc as (Hw3 & Hc3).
  destruct (truthy (ar_accept a)); intros [= <- <- _ <- _ _].
  - right. exists m, m1, (w_state w2), pr. cbn. rewrite Hw3. auto.
  - left. cbn. rewrite Hw3, (Hrev _ _ _ _ _ Happly). split; [reflexivity|].
    congruence.
Qed.

(** C6: if a failed [apply] leaves the state alone and [revert] restores
    the state that [apply] started from, then a completed [step] returns
    with the state it was given, every failed or rejected move reverted and
    the current result kept, or with the state of one move applied to that
    state, evaluated and accepted, whose evaluation is the new current
    result. *)
Theorem step_state_atomic fuel consgraph propose_func fd self w self' w' :
  (forall m s m1 s1, apply m s = (false, m1, s1) -> s1 = s) ->
  (forall m s ok m1 s1, apply m s = (ok, m1, s1) -> revert m1 s1 = s) ->
  step fuel consgraph propose_func fd self w = Ret (self', w') tt ->
  (w_state w' = w_state w /\
   curr_result self' = curr_result (seed_curr_result consgraph fd self w)) \/
  (exists m m1 st r,
     apply m (w_state w) = (true, m1, st) /\
     w_state w' = accept m1 st /\
     curr_result self' = Some r /\
     last_eval_result self' = Some r).
Proof.
  intros _ Hrev. unfold step.
  destruct (step_decide _ _ _ _ _ _) as [[s1 w1] [[[move prop] retry] ar]| |] eqn:Hd;
    cbn [bind]; try discriminate.
  apply (step_decide_state _ _ _ _ _ _ _ _ _ _ _ _ Hrev) in Hd.
  pose proof (update_demon_energy_max_curr_result s1) as (Hupd & _ & _).
  set (s2 := update_demon_energy_max s1) in *.
  assert (Hfin : forall s3 : Solver,
             curr_result s3 = curr_result s1 ->
             w_state w' = w_state w1 ->
             self' = match prop with
                     | Some _ =>
                       set_last_eval_result prop
                         (set_curr_iteration (curr_iteration s3 + 1) s3)
                     | None => set_curr_iteration (curr_iteration s3 + 1) s3
                     end ->
             (w_state w' = w_state w /\
              curr_result self' = curr_result (seed_curr_result consgraph fd self w)) \/
             (exists m m1 st r,
                apply m (w_state w) = (true, m1, st) /\
                w_state w' = accept m1 st /\
                curr_result self' = Some r /\
                last_eval_result self' = Some r)).
  { intros s3 Hc Hw ->.
    destruct Hd as [(Hst & Hcr)|(m & m1 & st & r & Happly & Hst & Hcr & ->)].
    - left. rewrite Hw, Hst. split; [reflexivity|].
      destruct prop; cbn; congruence.
    - right. exists m, m1, st, r. cbn. rewrite Hw, Hst, Hc, Hcr. auto. }
  destruct (is_log_step self).
  - destruct (curr_result s2) as [curr|] eqn:Hcs2; cbn [bind]; [|discriminate].
    intros [= <- <-].
    apply (Hfin (set_stats (stats s2 ++ [stat_row s2 curr (ar_accept ar) move retry]) s2));
      [cbn; congruence|reflexivity|reflexivity].
  - cbn [bind]. intros [= <- <-]. apply (Hfin s2); [exact Hupd|reflexivity|reflexivity].
Qed.

(** * Further properties of the solver *)

(** ** The retry loop, whatever its outcome *)

Definition is_reverted (c : Call Move Node) : bool :=
  match c with Reverted _ => true | _ => false end.
Definition is_accepted (c : Call Move Node) : bool :=
  match c with Accepted _ => true | _ => false end.

(** The cross check only reports: whether it returns or raises, the solver
    is the one it was given. *)
Lemma _move_self_any consgraph m fd lazy validate self w self' w' :
  outcome_state (_move consgraph m fd lazy validate self w) = Some (self', w') ->
  self' = set_eval_memo (eval_memo self') self.
Proof.
  unfold _move. destruct lazy.
  - destruct (evaluate_problem false consgraph (w_state w) fd _) as [pr memo].
    destruct validate; [|intros [= <- _]; reflexivity].
    destruct (validate_lazy_eval_state consgraph pr fd (set_eval_memo memo self)
                (call (Evaluated m) (call (Evicted m) w))) as [reported Hv].
    destruct (validate_lazy_eval _ _ _ _ _) as [s u|s e|]; cbn in Hv |- *;
      try discriminate; injection Hv as ->; intros [= <- _]; reflexivity.
  - destruct validate; [|intros [= <- _]; symmetry; apply set_eval_memo_id].
    destruct (validate_lazy_eval_state consgraph
                (fst (evaluate_problem false consgraph (w_state w) fd ∅)) fd self
                (call (Evaluated m) w)) as [reported Hv].
    destruct (validate_lazy_eval _ _ _ _ _) as [s u|s e|]; cbn in Hv |- *;
      try discriminate; injection Hv as ->; intros [= <- _]; symmetry;
      apply set_eval_memo_id.
Qed.

(** [_move] raises only from the cross check: validation is enabled, the
    error is not [AttributeError], and the state is the one evaluated. *)
Lemma _move_raise consgraph m fd lazy validate self w s e :
  _move consgraph m fd lazy validate self w = Raise s e ->
  validate = true /\ e <> AttributeError /\ w_state (snd s) = w_state w.
Proof.
  assert (Hval : forall pr self1 w1 s1 e1,
             validate_lazy_eval consgraph pr fd self1 w1 = Raise s1 e1 ->
             e1 <> AttributeError /\ w_state (snd s1) = w_state w1).
  { intros pr self1 w1 s1 e1. unfold validate_lazy_eval.
    destruct (evaluate_problem true consgraph (w_state w1) fd ∅) as [real tm].
    destruct (neqb (loss real) (loss pr)); [discriminate|].
    destruct (report_out_of_sync_calls (eval_memo self1) tm (traverse consgraph) w1)
      as [reported Hrep].
    destruct (report_out_of_sync _ _ _ _) as [w2 [key|]]; cbn in Hrep; subst w2;
      intros [= <- <-]; split; (discriminate || reflexivity). }
  unfold _move. destruct lazy.
  - destruct (evaluate_problem false consgraph (w_state w) fd _) as [pr memo].
    destruct validate; [|discriminate].
    destruct (validate_lazy_eval _ _ _ _ _) as [s1 u|s1 e1|] eqn:Hv; cbn [bind];
      try discriminate.
    intros [= <- <-]. apply Hval in Hv. destruct Hv as [Hne Hst].
    split; [reflexivity|]. split; [exact Hne|]. rewrite Hst. reflexivity.
  - destruct validate; [|discriminate].
    destruct (validate_lazy_eval _ _ _ _ _) as [s1 u|s1 e1|] eqn:Hv; cbn [bind];
      try discriminate.
    intros [= <- <-]. apply Hval in Hv. destruct Hv as [Hne Hst].
    split; [reflexivity|]. split; [exact Hne|]. rewrite Hst. reflexivity.
Qed.

Lemma retry_loop_self_any fuel consgraph fd :
  forall gen idx move retry self w self' w',
    outcome_state (retry_loop fuel consgraph fd gen idx move retry self w) =
      Some (self', w') ->
    self' = set_eval_memo (eval_memo self') self.
Proof.
  induction fuel as [|fuel IH]; intros gen idx move retry self w self' w';
    cbn [retry_loop]; [discriminate|].
  destruct (next gen (w_state w)) as [[m gen']|].
  2:{ intros [= <- _]. symmetry. apply set_eval_memo_id. }
  destruct (idx =? max_invalid_candidates self).
  { intros [= <- _]. symmetry. apply set_eval_memo_id. }
  cbn [w_state call]. destruct (apply m (w_state w)) as [[ok m1] s1]. destruct ok.
  - match goal with
    | |- context [_move ?g ?mv ?d ?l ?v ?sf ?wd] =>
      pose proof (_move_self_any g mv d l v sf wd) as Hm
    end.
    destruct (_move _ _ _ _ _ _ _) as [[s2 w2] res|[s2 w2] e|]; cbn [bind outcome_state];
      try discriminate; intros [= <- _]; rewrite (Hm _ _ eq_refl); reflexivity.
  - intros Hrun. apply IH in Hrun. rewrite Hrun. reflexivity.
Qed.

Lemma retry_outcome_frame fuel propose_func consgraph temp fd self w self' w' :
  outcome_state
    (retry_attempt_proposals fuel propose_func consgraph temp fd self w) =
    Some (self', w') ->
  self' = set_eval_memo (eval_memo self') self /\ w_rng w' = w_rng w.
Proof.
  unfold retry_attempt_proposals. intros Hout. split.
  - eapply retry_loop_self_any. exact Hout.
  - apply retry_loop_run in Hout. destruct Hout as (tr & _ & Hrng & _). exact Hrng.
Qed.

(** X1: whether it returns or raises, one call of the retry loop changes no
    field of the solver except the memo, and draws no random number. *)
Theorem retry_attempt_proposals_frame fuel propose_func consgraph temp fd self w self' w' :
  outcome_state
    (retry_attempt_proposals fuel propose_func consgraph temp fd self w) =
    Some (self', w') ->
  self' = set_eval_memo (eval_memo self') self /\ w_rng w' = w_rng w.
Proof.
  unfold retry_attempt_proposals. intros Hout. split.
  - eapply retry_loop_self_any. exact Hout.
  - apply retry_loop_run in Hout. destruct Hout as (tr & _ & Hrng & _). exact Hrng.
Qed.

(** A run of the loop that returns a result: [pre] are the calls of the
    candidates that failed before the one that applied. *)
Lemma retry_loop_success fuel consgraph fd :
  forall gen idx move retry self w self' w' mv r rt,
    retry_loop fuel consgraph fd gen idx move retry self w =
      Ret (self', w') (mv, Some r, rt) ->
    exists pre m m1,
      w_calls w' =
        w_calls w ++ pre ++
        Pulled m :: Applied m1 true :: Evicted m1 :: move_calls (do_lazy_eval gin) m1 /\
      mv = Some m1 /\
      rt = Some (idx + count_calls is_reverted pre) /\
      count_calls is_pulled pre = count_calls is_reverted pre /\
      count_calls is_applied pre = count_calls is_reverted pre /\
      count_calls is_evaluated pre = 0 /\
      count_calls is_accepted pre = 0.
Proof.
  induction fuel as [|fuel IH]; intros gen idx move retry self w self' w' mv r rt;
    cbn [retry_loop]; [discriminate|].
  destruct (next gen (w_state w)) as [[m gen']|]; [|discriminate].
  destruct (idx =? max_invalid_candidates self); [discriminate|].
  cbn [w_state call]. destruct (apply m (w_state w)) as [[ok m1] s1]. destruct ok.
  - destruct (_move _ _ _ _ _ _ _) as [[s2 w2] res| |] eqn:Hm; cbn [bind];
      try discriminate.
    intros [= <- <- <- _ <-]. apply _move_ret in Hm as (_ & _ & _ & Hcalls).
    exists [], m, m1. rewrite Hcalls. cbn. rewrite <- !app_assoc. cbn.
    repeat split. f_equal. unfold count_calls. cbn. lia.
  - intros Hrun. apply IH in Hrun.
    destruct Hrun as (pre & m2 & m3 & Hcalls & -> & -> & Hp & Ha & He & Hc).
    exists (Pulled m :: Applied m1 false :: Evicted m1 :: Reverted m1 :: pre), m2, m3.
    rewrite Hcalls. cbn. rewrite <- !app_assoc. cbn.
    rewrite !count_calls_cons. cbn [is_pulled is_applied is_evaluated is_reverted is_accepted].
    repeat split; try lia. f_equal. lia.
Qed.

(** X2: when the retry loop returns a result, the move it returns is the
    candidate that applied, [retry] is the number of candidates that failed
    and were reverted before it, one more candidate was pulled than failed,
    and the candidate was evaluated once, after the evictions. *)
Theorem retry_attempt_proposals_success
    fuel propose_func consgraph temp fd self w self' w' mv r rt :
  retry_attempt_proposals fuel propose_func consgraph temp fd self w =
    Ret (self', w') (mv, Some r, rt) ->
  exists tr m1,
    w_calls w' = w_calls w ++ tr /\
    mv = Some m1 /\
    In (Applied m1 true) tr /\
    rt = Some (count_calls is_reverted tr) /\
    count_calls is_pulled tr = count_calls is_reverted tr + 1 /\
    count_calls is_applied tr = count_calls is_reverted tr + 1 /\
    count_calls is_evaluated tr = 1 /\
    exists before, tr = before ++ Evicted m1 :: move_calls (do_lazy_eval gin) m1.
Proof.
  unfold retry_attempt_proposals. intros Hrun. apply retry_loop_success in Hrun.
  destruct Hrun as (pre & m & m1 & Hcalls & -> & -> & Hp & Ha & He & _).
  exists (pre ++ Pulled m :: Applied m1 true :: Evicted m1 ::
          move_calls (do_lazy_eval gin) m1), m1.
  split; [exact Hcalls|]. split; [reflexivity|].
  split; [apply in_or_app; right; right; left; reflexivity|].
  rewrite !count_calls_app, !count_calls_cons.
  cbn [is_pulled is_applied is_evaluated is_reverted].
  assert (Hmc : count_calls is_reverted (move_calls (do_lazy_eval gin) m1) = 0 /\
                count_calls is_pulled (move_calls (do_lazy_eval gin) m1) = 0 /\
                count_calls is_applied (move_calls (do_lazy_eval gin) m1) = 0 /\
                count_calls is_evaluated (move_calls (do_lazy_eval gin) m1) = 1).
  { unfold move_calls, count_calls. destruct (do_lazy_eval gin); cbn; repeat split. }
  destruct Hmc as (-> & -> & -> & ->).
  repeat split; try (f_equal; lia); try lia.
  exists (pre ++ [Pulled m; Applied m1 true]). rewrite <- app_assoc. reflexivity.
Qed.

(** ** The demon rule, once more *)

(** X3: [accept_move] never touches the state or the log of calls, and it
    draws a random number, exactly one, only when the violation counts are
    equal and the move is neither affordable nor downhill; the answer is
    then decided by that draw alone and the solver is left as it was. *)
Theorem accept_move_randomness delta prop curr self w self' w' r :
  curr_result self = Some curr ->
  accept_move delta prop self w = Ret (self', w') r ->
  w_state w' = w_state w /\
  w_calls w' = w_calls w /\
  (if (viol_count prop =? viol_count curr)
      && negb (ngeb (demon_energy self) delta || nleb delta nzero)
   then
     w_rng w' = snd (uniform (w_rng w)) /\
     ar_accept r = Some (nltb (fst (uniform (w_rng w))) random_acceptance_chance) /\
     self' = self
   else w_rng w' = w_rng w).
Proof.
  intros Hcurr. unfold accept_move. rewrite Hcurr.
  destruct (Z.ltb_spec 0 (viol_count prop - viol_count curr)) as [Hgt|Hle].
  { intros [= <- <- _]. destruct (Z.eqb_spec (viol_count prop) (viol_count curr)); [lia|].
    cbn. auto. }
  destruct (Z.ltb_spec (viol_count prop - viol_count curr) 0) as [Hlt|Hge].
  { intros [= <- <- _]. destruct (Z.eqb_spec (viol_count prop) (viol_count curr)); [lia|].
    cbn. auto. }
  destruct (Z.eqb_spec (viol_count prop) (viol_count curr)) as [_|Hne]; [|lia].
  destruct (ngeb (demon_energy self) delta || nleb delta nzero).
  { intros [= <- <- _]. cbn. auto. }
  destruct (uniform (w_rng w)) as [draw rng]. cbn [fst snd negb andb].
  destruct (nltb draw random_acceptance_chance); intros [= <- <- <-]; cbn; auto.
Qed.

Lemma accept_move_calls_rng delta prop self w self' w' r :
  accept_move delta prop self w = Ret (self', w') r ->
  w_calls w' = w_calls w /\
  (w_rng w' = w_rng w \/ w_rng w' = snd (uniform (w_rng w))).
Proof.
  unfold accept_move. destruct (curr_result self) as [curr|]; [|discriminate].
  destruct (0 <? _). { intros [= _ <- _]. auto. }
  destruct (_ <? 0). { intros [= _ <- _]. auto. }
  destruct (_ || _). { intros [= _ <- _]. auto. }
  destruct (uniform (w_rng w)) as [draw rng].
  destruct (nltb draw random_acceptance_chance); intros [= _ <- _]; cbn; auto.
Qed.

(** An accepted proposal has no more violations than the current result. *)
Lemma accept_move_accept_viol delta prop curr self w s r :
  curr_result self = Some curr ->
  accept_move delta prop self w = Ret s r ->
  truthy (ar_accept r) = true ->
  viol_count prop <= viol_count curr.
Proof.
  intros Hcurr. unfold accept_move. rewrite Hcurr.
  destruct (Z.ltb_spec 0 (viol_count prop - viol_count curr)) as [Hgt|Hle].
  { intros [= _ <-]. discriminate. }
  intros _ _. lia.
Qed.

(** What [accept_move] does to the demon: nothing, or the payment of an
    affordable or downhill move. *)
Lemma accept_move_demon delta prop self w self' w' r :
  accept_move delta prop self w = Ret (self', w') r ->
  demon_energy self' = demon_energy self \/
  ((ngeb (demon_energy self) delta || nleb delta nzero) = true /\
   demon_energy self' = nsub (demon_energy self) delta).
Proof.
  unfold accept_move. destruct (curr_result self) as [curr|]; [|discriminate].
  destruct (0 <? _). { intros [= <- _ _]. left. reflexivity. }
  destruct (_ <? 0). { intros [= <- _ _]. left. reflexivity. }
  destruct (ngeb (demon_energy self) delta || nleb delta nzero) eqn:Hcond.
  { intros [= <- _ _]. right. split; reflexivity. }
  destruct (uniform (w_rng w)) as [draw rng].
  destruct (nltb draw random_acceptance_chance); intros [= <- _ _]; left; reflexivity.
Qed.

(** ** Taking [step] apart *)

(** The bookkeeping at the end of [step], for the solver [s1] that the
    decision left and the locals of the iteration. *)
Definition record_iteration (log_step : bool) (move : option Move)
    (prop_result : option EvalResult) (retry : option Z)
    (accept_result : AcceptResult num) (s1 : Solver) : Solver :=
  let s2 := update_demon_energy_max s1 in
  let s3 :=
    if log_step then
      match curr_result s2 with
      | Some curr =>
        set_stats
          (stats s2 ++ [stat_row s2 curr (ar_accept accept_result) move retry]) s2
      | None => s2
      end
    else s2 in
  let s4 := set_curr_iteration (curr_iteration s3 + 1) s3 in
  match prop_result with
  | Some _ => set_last_eval_result prop_result s4
  | None => s4
  end.

Lemma step_decide_inv fuel consgraph propose_func fd self w s1 w1 move prop retry ar :
  step_decide fuel consgraph propose_func fd self w =
    Ret (s1, w1) (move, prop, retry, ar) ->
  exists s0 w0,
    retry_attempt_proposals fuel propose_func consgraph
      (demon_energy (seed_curr_result consgraph fd self w)) fd
      (seed_curr_result consgraph fd self w) w = Ret (s0, w0) (move, prop, retry) /\
    match prop with
    | None => s1 = s0 /\ w1 = w0 /\ ar = null_accept_result
    | Some p =>
      exists curr m s2 w2,
        curr_result s0 = Some curr /\
        move = Some m /\
        accept_move (nsub (loss p) (loss curr)) p s0 w0 = Ret (s2, w2) ar /\
        if truthy (ar_accept ar) then
          s1 = set_curr_result (Some p) s2 /\
          w1 = call (Accepted m) (set_state (accept m (w_state w2)) w2)
        else
          s1 = set_eval_memo
                 (evict_memo_for_move consgraph (w_state w2) (eval_memo s2) m) s2 /\
          w1 = call (Reverted m)
                 (set_state (revert m (w_state w2)) (call (Evicted m) w2))
    end.
Proof.
  unfold step_decide. cbv zeta.
  destruct (retry_attempt_proposals _ _ _ _ _ _ _) as [[s0 w0] [[mv pr] rt]| |];
    cbn [bind]; try discriminate.
  destruct pr as [p|].
  2:{ intros [= <- <- <- <- <- <-]. exists s0, w0. auto. }
  cbn [fst snd]. unfold calculate_delta_energy.
  destruct (curr_result s0) as [curr|] eqn:Hcurr; cbn [bind fst snd]; [|discriminate].
  destruct (accept_move _ _ _ _) as [[s2 w2] a| |] eqn:Hacc; cbn [bind];
    try discriminate.
  destruct mv as [m|]; [|discriminate].
  destruct (truthy (ar_accept a)) eqn:Htr; intros [= <- <- <- <- <- <-];
    exists s0, w0; (split; [reflexivity|]); exists curr, m, s2, w2;
    rewrite Htr; auto.
Qed.

Lemma record_iteration_fields log_step move prop retry ar (s1 : Solver) :
  let s' := record_iteration log_step move prop retry ar s1 in
  curr_result s' = curr_result s1 /\
  curr_iteration s' = curr_iteration s1 + 1 /\
  eval_memo s' = eval_memo s1 /\
  last_eval_result s' =
    match prop with Some _ => prop | None => last_eval_result s1 end.
Proof.
  cbv zeta. unfold record_iteration, update_demon_energy_max.
  destruct (ngtb _ _); cbn; destruct log_step;
    try destruct (curr_result s1) eqn:Hcurr; destruct prop; cbn; auto.
Qed.

Lemma step_inv fuel consgraph propose_func fd self w self' w' :
  step fuel consgraph propose_func fd self w = Ret (self', w') tt ->
  exists s1 move prop retry ar,
    step_decide fuel consgraph propose_func fd self w =
      Ret (s1, w') (move, prop, retry, ar) /\
    self' = record_iteration (is_log_step self) move prop retry ar s1.
Proof.
  unfold step.
  destruct (step_decide _ _ _ _ _ _) as [[s1 w1] [[[move prop] retry] ar]| |];
    cbn [bind]; try discriminate.
  destruct (is_log_step self).
  - destruct (curr_result (update_demon_energy_max s1)) as [curr|] eqn:Hcurr;
      cbn [bind]; [|discriminate].
    intros [= <- <-]. exists s1, move, prop, retry, ar. split; [reflexivity|].
    unfold record_iteration. cbv zeta. rewrite Hcurr. reflexivity.
  - cbn [bind]. intros [= <- <-]. exists s1, move, prop, retry, ar. split; reflexivity.
Qed.

(** X4: hard constraints never get worse.  After a completed [step] there
    is a current result, and it has no more violations than the one the
    iteration started from (the seeded one, on a first iteration); it is
    either that very result or the proposal evaluated in this iteration. *)
Theorem step_violations_never_increase fuel consgraph propose_func fd self w self' w' :
  step fuel consgraph propose_func fd self w = Ret (self', w') tt ->
  exists c c',
    curr_result (seed_curr_result consgraph fd self w) = Some c /\
    curr_result self' = Some c' /\
    viol_count c' <= viol_count c /\
    (c' = c \/ last_eval_result self' = Some c').
Proof.
  intros Hstep. apply step_inv in Hstep.
  destruct Hstep as (s1 & move & prop & retry & ar & Hd & ->).
  pose proof (record_iteration_fields (is_log_step self) move prop retry ar s1) as Hrec.
  cbv zeta in Hrec. destruct Hrec as (Hcr & _ & _ & Hlast). rewrite Hcr, Hlast.
  apply step_decide_inv in Hd. destruct Hd as (s0 & w0 & Hretry & Hcase).
  destruct (seed_curr_result_is_Some consgraph fd self w) as [c Hc].
  unfold retry_attempt_proposals in Hretry.
  pose proof (retry_loop_curr_result _ _ _ _ _ _ _ _ _ _ _ _ Hretry) as Hc0.
  rewrite Hc in Hc0. exists c.
  destruct prop as [p|].
  - destruct Hcase as (curr & m & s2 & w2 & Hcurr & _ & Hacc & Hfin).
    assert (curr = c) by congruence. subst curr.
    destruct (truthy (ar_accept ar)) eqn:Htr; destruct Hfin as [-> _].
    + exists p. cbn. split; [exact Hc|]. split; [reflexivity|].
      split; [|right; reflexivity].
      eapply accept_move_accept_viol; eassumption.
    + exists c. apply accept_move_world in Hacc. destruct Hacc as [_ Hc2].
      cbn. rewrite Hc2, Hc0. split; [exact Hc|]. split; [reflexivity|].
      split; [lia|left; reflexivity].
  - destruct Hcase as (-> & _ & _). exists c. rewrite Hc0.
    split; [exact Hc|]. split; [reflexivity|]. split; [lia|left; reflexivity].
Qed.

(** X5: one completed [step] draws at most one random number, and none
    unless a move was evaluated. *)
Theorem step_draws_at_most_once fuel consgraph propose_func fd self w self' w' :
  step fuel consgraph propose_func fd self w = Ret (self', w') tt ->
  w_rng w' = w_rng w \/
  (w_rng w' = snd (uniform (w_rng w)) /\ exists r, last_eval_result self' = Some r).
Proof.
  intros Hstep. apply step_inv in Hstep.
  destruct Hstep as (s1 & move & prop & retry & ar & Hd & ->).
  pose proof (record_iteration_fields (is_log_step self) move prop retry ar s1) as Hrec.
  cbv zeta in Hrec. destruct Hrec as (_ & _ & _ & Hlast). rewrite Hlast.
  apply step_decide_inv in Hd. destruct Hd as (s0 & w0 & Hretry & Hcase).
  pose proof (retry_outcome_frame _ _ _ _ _ _ _ s0 w0
                (f_equal outcome_state Hretry)) as [_ Hrng0].
  destruct prop as [p|].
  - destruct Hcase as (curr & m & s2 & w2 & Hcurr & _ & Hacc & Hfin).
    pose proof (accept_move_calls_rng _ _ _ _ _ _ _ Hacc) as (_ & Hdraw).
    assert (Hw1 : w_rng w' = w_rng w2).
    { destruct (truthy (ar_accept ar)); destruct Hfin as [_ ->]; reflexivity. }
    rewrite Hw1.
    destruct Hdraw as [->| ->].
    + left. exact Hrng0.
    + right. rewrite Hrng0. split; [reflexivity|]. exists p. reflexivity.
  - destruct Hcase as (_ & -> & _). left. exact Hrng0.
Qed.

(** ** What a run keeps *)

(** The fields that only the constructor and [reset] write. *)
Definition config (s : Solver)
  : Z * Z * Z * num * num * num * Z * option num :=
  (max_invalid_candidates s, print_report_freq s, print_breakdown_freq s,
   initial_demon_energy s, initial_demon_energy_max s, reduction_factor s,
   max_iterations s, best_loss s).

Lemma accept_move_config delta prop self w self' w' r :
  accept_move delta prop self w = Ret (self', w') r -> config self' = config self.
Proof.
  unfold accept_move. destruct (curr_result self) as [curr|]; [|discriminate].
  destruct (0 <? _). { intros [= <- _ _]. reflexivity. }
  destruct (_ <? 0). { intros [= <- _ _]. reflexivity. }
  destruct (_ || _). { intros [= <- _ _]. reflexivity. }
  destruct (uniform (w_rng w)) as [draw rng].
  destruct (nltb draw random_acceptance_chance); intros [= <- _ _]; reflexivity.
Qed.

Lemma record_iteration_config log_step move prop retry ar (s1 : Solver) :
  config (record_iteration log_step move prop retry ar s1) = config s1.
Proof.
  unfold record_iteration, update_demon_energy_max.
  destruct (ngtb _ _); cbn; destruct log_step;
    try destruct (curr_result s1); destruct prop; reflexivity.
Qed.

Lemma seed_curr_result_config consgraph fd self w :
  config (seed_curr_result consgraph fd self w) = config self.
Proof. unfold seed_curr_result. destruct (curr_result self); reflexivity. Qed.

Lemma step_decide_config fuel consgraph propose_func fd self w s1 w1 r :
  step_decide fuel consgraph propose_func fd self w = Ret (s1, w1) r ->
  config s1 = config self.
Proof.
  destruct r as [[[move prop] retry] ar]. intros Hd.
  apply step_decide_inv in Hd. destruct Hd as (s0 & w0 & Hretry & Hcase).
  pose proof (retry_outcome_frame _ _ _ _ _ _ _ s0 w0
                (f_equal outcome_state Hretry)) as [Hs0 _].
  assert (Hc0 : config s0 = config self).
  { rewrite Hs0. cbn. apply seed_curr_result_config. }
  destruct prop as [p|].
  - destruct Hcase as (curr & m & s2 & w2 & _ & _ & Hacc & Hfin).
    apply accept_move_config in Hacc.
    destruct (truthy (ar_accept ar)); destruct Hfin as [-> _];
      change (config s2 = config self); congruence.
  - destruct Hcase as (-> & _). exact Hc0.
Qed.

Lemma step_config fuel consgraph propose_func fd self w self' w' :
  step fuel consgraph propose_func fd self w = Ret (self', w') tt ->
  config self' = config self.
Proof.
  intros Hstep. apply step_inv in Hstep.
  destruct Hstep as (s1 & move & prop & retry & ar & Hd & ->).
  rewrite record_iteration_config. eapply step_decide_config. exact Hd.
Qed.

Lemma after_steps_config self0 max_iters k self :
  after_steps self0 max_iters k self ->
  config self = config (reset max_iters self0) /\ curr_iteration self = Z.of_nat k.
Proof.
  induction 1 as [|k fuel consgraph f fd self w self' w' Hrun [IHc IHit] Hstep].
  - split; reflexivity.
  - split.
    + rewrite (step_config _ _ _ _ _ _ _ _ Hstep). exact IHc.
    + apply step_schedule in Hstep. destruct Hstep as (-> & _). lia.
Qed.

(** X6: a run never changes what the constructor configured, so [reset]
    after any number of completed iterations gives the solver that [reset]
    gave before the run, except for the statistics and the last evaluated
    result, which [reset] does not clear. *)
Theorem reset_after_run self0 max_iters k self max_iters' :
  after_steps self0 max_iters k self ->
  reset max_iters' self =
    set_stats (stats self)
      (set_last_eval_result (last_eval_result self) (reset max_iters' self0)).
Proof.
  intros Hrun. apply after_steps_config in Hrun. destruct Hrun as [Hc _].
  unfold config in Hc. cbn in Hc. injection Hc as H1 H2 H3 H4 H5 H6 _ _.
  unfold reset. cbn. rewrite H1, H2, H3, H4, H5, H6. reflexivity.
Qed.

(** ** The statistics *)

(** Iteration [i] is logged when the report frequency is not 0 and
    divides [i]. *)
Definition log_iteration (freq i : Z) : bool :=
  negb (freq =? 0) && (i mod freq =? 0).

Lemma step_stats fuel consgraph propose_func fd self w self' w' :
  step fuel consgraph propose_func fd self w = Ret (self', w') tt ->
  exists rows,
    stats self' = stats self ++ rows /\
    map st_curr_iteration rows =
      if is_log_step self then [curr_iteration self] else [].
Proof.
  intros Hstep. apply step_inv in Hstep.
  destruct Hstep as (s1 & move & prop & retry & ar & Hd & ->).
  pose proof (step_decide_frame _ _ _ _ _ _ _ _ _ Hd)
    as (_ & _ & _ & _ & _ & Hit & Hst & _).
  pose proof (update_demon_energy_max_curr_result s1) as (Hcr & Hstats & _).
  pose proof (update_demon_energy_max_spec s1) as Hs. cbv zeta in Hs.
  destruct Hs as (_ & _ & _ & Hit' & _).
  assert (Hsome : exists c, curr_result s1 = Some c).
  { apply step_decide_inv in Hd. destruct Hd as (s0 & w0 & Hretry & Hcase).
    destruct (seed_curr_result_is_Some consgraph fd self w) as [c Hc].
    unfold retry_attempt_proposals in Hretry.
    pose proof (retry_loop_curr_result _ _ _ _ _ _ _ _ _ _ _ _ Hretry) as Hc0.
    destruct prop as [p|].
    - destruct Hcase as (curr & m & s2 & w2 & _ & _ & Hacc & Hfin).
      apply accept_move_world in Hacc. destruct Hacc as [_ Hc2].
      destruct (truthy (ar_accept ar)); destruct Hfin as [-> _]; cbn;
        [eexists; reflexivity|exists c; congruence].
    - destruct Hcase as (-> & _). exists c. congruence. }
  destruct Hsome as [c Hc].
  unfold record_iteration. cbv zeta. rewrite Hcr, Hc.
  destruct (is_log_step self).
  - eexists [_]. split.
    + destruct prop; cbn; rewrite Hstats, Hst; reflexivity.
    + cbn. rewrite Hit', Hit. reflexivity.
  - exists []. split; [|reflexivity].
    destruct prop; cbn; rewrite Hstats, Hst, app_nil_r; reflexivity.
Qed.

(** X7: the statistics are append-only, and a run of [k] completed
    iterations after [reset] adds one row for each iteration [i < k] whose
    number the report frequency divides, in order, and none when the
    frequency is 0. *)
Theorem stats_cadence self0 max_iters k self :
  after_steps self0 max_iters k self ->
  exists rows,
    stats self = stats self0 ++ rows /\
    map st_curr_iteration rows =
      List.filter (log_iteration (print_report_freq self0))
        (map Z.of_nat (seq 0 k)).
Proof.
  intros Hrun.
  induction Hrun as [|k fuel consgraph f fd self w self' w' Hrun IH Hstep].
  - exists []. cbn. rewrite app_nil_r. split; reflexivity.
  - destruct IH as (rows & Hrows & Hits).
    apply after_steps_config in Hrun. destruct Hrun as [Hc Hit].
    assert (Hfreq : print_report_freq self = print_report_freq self0).
    { unfold config in Hc. cbn in Hc. injection Hc as _ Hf _ _ _ _ _ _. exact Hf. }
    apply step_stats in Hstep. destruct Hstep as (rows' & Hrows' & Hits').
    exists (rows ++ rows'). split.
    + rewrite Hrows', Hrows, app_assoc. reflexivity.
    + rewrite List.map_app, Hits, Hits', List.seq_S, List.map_app, List.filter_app.
      f_equal.
      cbn [map List.filter Nat.add]. unfold is_log_step, log_iteration.
      rewrite Hfreq, Hit. destruct (_ && _); reflexivity.
Qed.

(** ** How an iteration can end *)

(** The loop raises only out of the cross check of a candidate that
    applied, and then the state is the one that candidate left. *)
Lemma retry_loop_raise fuel consgraph fd :
  forall gen idx move retry self w s e,
    retry_loop fuel consgraph fd gen idx move retry self w = Raise s e ->
    validate_lazy_eval_flag gin = true /\
    e <> AttributeError /\
    ((forall m st ok m1 s1, apply m st = (ok, m1, s1) -> revert m1 s1 = st) ->
     exists m m1, apply m (w_state w) = (true, m1, w_state (snd s))).
Proof.
  induction fuel as [|fuel IH]; intros gen idx move retry self w s e;
    cbn [retry_loop]; [discriminate|].
  destruct (next gen (w_state w)) as [[m gen']|]; [|discriminate].
  destruct (idx =? max_invalid_candidates self); [discriminate|].
  cbn [w_state call]. destruct (apply m (w_state w)) as [[ok m1] s1] eqn:Happly.
  destruct ok.
  - destruct (_move _ _ _ _ _ _ _) as [s2 res|s2 e2|] eqn:Hm; cbn [bind];
      try discriminate.
    intros [= <- <-]. apply _move_raise in Hm. destruct Hm as (Hflag & Hne & Hst).
    split; [exact Hflag|]. split; [exact Hne|]. intros _.
    exists m, m1. rewrite Hst. exact Happly.
  - intros Hrun. apply IH in Hrun. destruct Hrun as (Hflag & Hne & Hst).
    split; [exact Hflag|]. split; [exact Hne|]. intros Hrev.
    specialize (Hst Hrev). cbn [w_state call set_state] in Hst.
    rewrite (Hrev _ _ _ _ _ Happly) in Hst. exact Hst.
Qed.

Lemma accept_move_total delta prop curr self w :
  curr_result self = Some curr ->
  exists self' w' r, accept_move delta prop self w = Ret (self', w') r.
Proof.
  intros Hcurr. unfold accept_move. rewrite Hcurr.
  destruct (0 <? _); [eexists _, _, _; reflexivity|].
  destruct (_ <? 0); [eexists _, _, _; reflexivity|].
  destruct (_ || _); [eexists _, _, _; reflexivity|].
  destruct (uniform (w_rng w)) as [draw rng].
  destruct (nltb draw random_acceptance_chance); eexists _, _, _; reflexivity.
Qed.

Lemma step_of_decide fuel consgraph propose_func fd self w :
  match step_decide fuel consgraph propose_func fd self w with
  | Ret (s1, w1) (move, prop, retry, ar) =>
    (exists c1, curr_result s1 = Some c1) ->
    step fuel consgraph propose_func fd self w =
      Ret (record_iteration (is_log_step self) move prop retry ar s1, w1) tt
  | Raise s e => step fuel consgraph propose_func fd self w = Raise s e
  | Timeout => step fuel consgraph propose_func fd self w = Timeout
  end.
Proof.
  unfold step.
  destruct (step_decide _ _ _ _ _ _) as [[s1 w1] [[[move prop] retry] ar]|s e|];
    cbn [bind]; try reflexivity.
  intros [c1 Hc1]. pose proof (update_demon_energy_max_curr_result s1) as (Hcr & _).
  unfold record_iteration. cbv zeta. rewrite Hcr, Hc1.
  destruct (is_log_step self); reflexivity.
Qed.

Lemma step_decide_of_retry fuel consgraph propose_func fd self w :
  match
    retry_attempt_proposals fuel propose_func consgraph
      (demon_energy (seed_curr_result consgraph fd self w)) fd
      (seed_curr_result consgraph fd self w) w
  with
  | Ret _ r =>
    exists s1 w1 ar c1,
      step_decide fuel consgraph propose_func fd self w = Ret (s1, w1) (r, ar) /\
      curr_result s1 = Some c1
  | Raise s e => step_decide fuel consgraph propose_func fd self w = Raise s e
  | Timeout => step_decide fuel consgraph propose_func fd self w = Timeout
  end.
Proof.
  destruct (seed_curr_result_is_Some consgraph fd self w) as [c Hc].
  unfold step_decide. cbv zeta.
  destruct (retry_attempt_proposals _ _ _ _ _ _ _) as [[s0 w0] [[mv pr] rt]|s e|] eqn:Hretry;
    cbn [bind]; try reflexivity.
  assert (Hc0 : curr_result s0 = Some c).
  { unfold retry_attempt_proposals in Hretry.
    rewrite (retry_loop_curr_result _ _ _ _ _ _ _ _ _ _ _ _ Hretry). exact Hc. }
  destruct pr as [p|].
  2:{ eexists _, _, _, c. split; [reflexivity|exact Hc0]. }
  cbn [fst snd]. unfold calculate_delta_energy. rewrite Hc0. cbn [bind fst snd].
  destruct (accept_move_total (nsub (loss p) (loss c)) p c s0 w0 Hc0)
    as (s2 & w2 & ar & Hacc).
  rewrite Hacc. cbn [bind].
  pose proof (accept_move_world _ _ _ _ _ _ _ Hacc) as [_ Hc2].
  unfold retry_attempt_proposals in Hretry.
  apply retry_loop_success in Hretry. destruct Hretry as (pre & m & m1 & _ & -> & _).
  destruct (truthy (ar_accept ar)).
  - eexists _, _, _, p. split; reflexivity.
  - eexists _, _, _, c. split; [reflexivity|]. cbn. congruence.
Qed.

(** [step] ends the way its retry loop ends: nothing after the loop can
    raise or fail to return. *)
Lemma step_of_retry fuel consgraph propose_func fd self w :
  match
    retry_attempt_proposals fuel propose_func consgraph
      (demon_energy (seed_curr_result consgraph fd self w)) fd
      (seed_curr_result consgraph fd self w) w
  with
  | Ret _ _ => exists self' w', step fuel consgraph propose_func fd self w = Ret (self', w') tt
  | Raise s e => step fuel consgraph propose_func fd self w = Raise s e
  | Timeout => step fuel consgraph propose_func fd self w = Timeout
  end.
Proof.
  pose proof (step_decide_of_retry fuel consgraph propose_func fd self w) as Hd.
  pose proof (step_of_decide fuel consgraph propose_func fd self w) as Hs.
  destruct (retry_attempt_proposals _ _ _ _ _ _ _) as [s0 r|s e|].
  - destruct Hd as (s1 & w1 & ar & c1 & Hd & Hc1). rewrite Hd in Hs.
    destruct r as [[mv pr] rt]. eexists _, _. apply Hs. exists c1. exact Hc1.
  - rewrite Hd in Hs. exact Hs.
  - rewrite Hd in Hs. exact Hs.
Qed.

(** X8: with the cross check disabled (as by default) and a bound that is
    not negative, [step] always returns normally, whatever the generator,
    the moves and the evaluator do: no exception leaves it. *)
Theorem step_returns_without_validation fuel consgraph propose_func fd self w :
  validate_lazy_eval_flag gin = false ->
  0 <= max_invalid_candidates self ->
  max_invalid_candidates self < Z.of_nat fuel ->
  exists self' w', step fuel consgraph propose_func fd self w = Ret (self', w') tt.
Proof.
  intros Hflag Hmax Hfuel.
  pose proof (step_of_retry fuel consgraph propose_func fd self w) as Hstep.
  assert (Hm : max_invalid_candidates (seed_curr_result consgraph fd self w) =
               max_invalid_candidates self).
  { unfold seed_curr_result. destruct (curr_result self); reflexivity. }
  destruct (retry_attempt_proposals _ _ _ _ _ _ _) as [s r|s e|] eqn:Hretry.
  - exact Hstep.
  - unfold retry_attempt_proposals in Hretry. apply retry_loop_raise in Hretry.
    destruct Hretry as (Hon & _). congruence.
  - exfalso. unfold retry_attempt_proposals in Hretry.
    eapply retry_loop_terminates; [| |rewrite Hretry; reflexivity]; rewrite Hm; lia.
Qed.

(** X9: an exception leaves [step] only when the cross check is enabled; it
    is then the error of the cross check, never [AttributeError].  The
    iteration is abandoned as it stands: the counter, the statistics, the
    energies and the current result are those of the start (after seeding),
    only the memo has changed, and, if [revert] restores what [apply]
    started from, the state is the one that the checked move left, not
    reverted. *)
Theorem step_raise fuel consgraph propose_func fd self w self' w' e :
  step fuel consgraph propose_func fd self w = Raise (self', w') e ->
  validate_lazy_eval_flag gin = true /\
  e <> AttributeError /\
  self' = set_eval_memo (eval_memo self') (seed_curr_result consgraph fd self w) /\
  ((forall m st ok m1 s1, apply m st = (ok, m1, s1) -> revert m1 s1 = st) ->
   exists m m1, apply m (w_state w) = (true, m1, w_state w')).
Proof.
  intros Hstep.
  pose proof (step_of_retry fuel consgraph propose_func fd self w) as Hcase.
  destruct (retry_attempt_proposals _ _ _ _ _ _ _) as [s r|s e0|] eqn:Hretry.
  - destruct Hcase as (s1 & w1 & Heq). congruence.
  - rewrite Hcase in Hstep. injection Hstep as -> ->.
    pose proof (retry_outcome_frame _ _ _ _ _ _ _ self' w'
                  (f_equal outcome_state Hretry)) as [Hself _].
    unfold retry_attempt_proposals in Hretry. apply retry_loop_raise in Hretry.
    destruct Hretry as (Hflag & Hne & Hst).
    split; [exact Hflag|]. split; [exact Hne|]. split; [exact Hself|exact Hst].
  - congruence.
Qed.

(** ** Every applied move is closed *)

Lemma none_run_counts max idx move retry tr mv rt :
  none_run max idx move retry tr mv rt ->
  count_calls is_applied tr = count_calls is_reverted tr /\
  count_calls is_accepted tr = 0 /\
  count_calls is_evaluated tr = 0.
Proof.
  induction 1 as [idx move retry|move retry m|idx move retry m m1 tr mv rt Hne Hrun IH].
  - repeat split.
  - repeat split.
  - rewrite !count_calls_cons.
    cbn [is_applied is_reverted is_accepted is_evaluated].
    destruct IH as (? & ? & ?). repeat split; lia.
Qed.

(** X10: in the calls of a completed [step], the applied moves are as many
    as the reverted and the accepted ones together, at most one move is
    accepted and at most one evaluated, and none is accepted that was not
    evaluated: every candidate that was applied has been reverted or
    accepted by the time [step] returns. *)
Theorem step_closes_every_move fuel consgraph propose_func fd self w self' w' :
  step fuel consgraph propose_func fd self w = Ret (self', w') tt ->
  exists tr,
    w_calls w' = w_calls w ++ tr /\
    count_calls is_applied tr =
      count_calls is_reverted tr + count_calls is_accepted tr /\
    count_calls is_accepted tr <= count_calls is_evaluated tr /\
    count_calls is_evaluated tr <= 1.
Proof.
  intros Hstep. apply step_inv in Hstep.
  destruct Hstep as (s1 & move & prop & retry & ar & Hd & _).
  apply step_decide_inv in Hd. destruct Hd as (s0 & w0 & Hretry & Hcase).
  destruct prop as [p|].
  - destruct Hcase as (curr & m & s2 & w2 & Hcurr & Hmv & Hacc & Hfin).
    pose proof (accept_move_calls_rng _ _ _ _ _ _ _ Hacc) as (Hcalls2 & _).
    unfold retry_attempt_proposals in Hretry. apply retry_loop_success in Hretry.
    destruct Hretry as (pre & m0 & m1 & Hcalls0 & _ & _ & _ & Ha & He & Hc).
    assert (Hmc : forall p0 : Call Move Node -> bool,
               (forall x, p0 (Evicted x) = false) ->
               count_calls p0 (move_calls (do_lazy_eval gin) m1) =
                 if p0 (Evaluated m1) then 1 else 0).
    { intros p0 Hp0. unfold move_calls.
      destruct (do_lazy_eval gin); rewrite !count_calls_cons, ?Hp0;
        unfold count_calls; cbn; lia. }
    destruct (truthy (ar_accept ar)); destruct Hfin as [_ ->].
    + exists (pre ++ Pulled m0 :: Applied m1 true :: Evicted m1 ::
              move_calls (do_lazy_eval gin) m1 ++ [Accepted m]).
      split.
      { cbn. rewrite Hcalls2, Hcalls0, <- !app_assoc. reflexivity. }
      rewrite !count_calls_app, !count_calls_cons, !count_calls_app,
        !Hmc by reflexivity.
      rewrite Ha, He, Hc. unfold count_calls. cbn. repeat split; lia.
    + exists (pre ++ Pulled m0 :: Applied m1 true :: Evicted m1 ::
              move_calls (do_lazy_eval gin) m1 ++ [Evicted m; Reverted m]).
      split.
      { cbn. rewrite Hcalls2, Hcalls0, <- !app_assoc. reflexivity. }
      rewrite !count_calls_app, !count_calls_cons, !count_calls_app,
        !Hmc by reflexivity.
      rewrite Ha, He, Hc. unfold count_calls. cbn. repeat split; lia.
  - destruct Hcase as (_ & -> & _).
    pose proof (f_equal outcome_state Hretry) as Hout. cbn in Hout.
    unfold retry_attempt_proposals in Hout, Hretry.
    apply retry_loop_run in Hout. destruct Hout as (tr & Hcalls & _ & _ & Hres).
    exists tr. split; [exact Hcalls|].
    destruct Hres as [(mv & rt & Heq & Hnone)|(_ & Hneq)].
    + apply none_run_counts in Hnone. destruct Hnone as (-> & -> & ->).
      repeat split; lia.
    + exfalso. eapply Hneq. exact Hretry.
Qed.

(** ** The demon's energy along a run *)

Lemma record_iteration_demon log_step move prop retry ar (s1 : Solver) :
  demon_energy (record_iteration log_step move prop retry ar s1) =
    demon_energy (update_demon_energy_max s1) /\
  demon_energy_max (record_iteration log_step move prop retry ar s1) =
    demon_energy_max (update_demon_energy_max s1).
Proof.
  unfold record_iteration. cbv zeta.
  destruct log_step; [destruct (curr_result (update_demon_energy_max s1))|];
    destruct prop; split; reflexivity.
Qed.

Lemma step_decide_demon fuel consgraph propose_func fd self w s1 w1 r :
  step_decide fuel consgraph propose_func fd self w = Ret (s1, w1) r ->
  demon_energy s1 = demon_energy self \/
  exists delta,
    (ngeb (demon_energy self) delta || nleb delta nzero) = true /\
    demon_energy s1 = nsub (demon_energy self) delta.
Proof.
  destruct r as [[[move prop] retry] ar]. intros Hd.
  apply step_decide_inv in Hd. destruct Hd as (s0 & w0 & Hretry & Hcase).
  pose proof (retry_outcome_frame _ _ _ _ _ _ _ s0 w0
                (f_equal outcome_state Hretry)) as [Hs0 _].
  assert (Hd0 : demon_energy s0 = demon_energy self).
  { rewrite Hs0. cbn. apply seed_curr_result_demon_energy. }
  destruct prop as [p|].
  - destruct Hcase as (curr & m & s2 & w2 & _ & _ & Hacc & Hfin).
    apply accept_move_demon in Hacc. rewrite Hd0 in Hacc.
    assert (Hd1 : demon_energy s1 = demon_energy s2).
    { destruct (truthy (ar_accept ar)); destruct Hfin as [-> _]; reflexivity. }
    rewrite Hd1. destruct Hacc as [->|(Hcond & ->)].
    + left. reflexivity.
    + right. eexists. split; [exact Hcond|reflexivity].
  - destruct Hcase as (-> & _). left. exact Hd0.
Qed.

(** X11: in one completed [step] the demon's energy changes in two ways
    only: it pays the energy difference of one move that it can afford or
    that is downhill, and it is then clamped to the new ceiling. *)
Theorem step_demon_energy fuel consgraph propose_func fd self w self' w' :
  step fuel consgraph propose_func fd self w = Ret (self', w') tt ->
  exists d,
    (d = demon_energy self \/
     exists delta,
       (ngeb (demon_energy self) delta || nleb delta nzero) = true /\
       d = nsub (demon_energy self) delta) /\
    demon_energy self' =
      if ngtb d (demon_energy_max self') then demon_energy_max self' else d.
Proof.
  intros Hstep. apply step_inv in Hstep.
  destruct Hstep as (s1 & move & prop & retry & ar & Hd & ->).
  destruct (record_iteration_demon (is_log_step self) move prop retry ar s1) as [-> ->].
  pose proof (update_demon_energy_max_spec s1) as Hs. cbv zeta in Hs.
  destruct Hs as (_ & _ & Hclamp & _).
  exists (demon_energy s1). split; [|exact Hclamp].
  eapply step_decide_demon. exact Hd.
Qed.

(** The order laws that the invariant below needs from the arithmetic;
    exact rationals have them. *)
Definition ordered_arith : Prop :=
  (forall a b : num, nleb b a = true -> nleb nzero (nsub a b) = true) /\
  (forall a b : num,
     nleb nzero a = true -> nleb b nzero = true -> nleb nzero (nsub a b) = true) /\
  (forall a b : num,
     nleb nzero a = true -> nleb nzero b = true -> nleb nzero (nmul a b) = true) /\
  (forall (a : num) (k : Z),
     nleb nzero a = true -> 0 <= k -> nleb nzero (npow a k) = true).

(** X12: in an ordered arithmetic, if the configured energy, ceiling and
    reduction factor are not negative, the demon's energy is never negative
    after [reset] and any number of completed iterations: the demon only
    pays what it has. *)
Theorem demon_energy_nonnegative self0 max_iters k self :
  ordered_arith ->
  nleb nzero (initial_demon_energy self0) = true ->
  nleb nzero (initial_demon_energy_max self0) = true ->
  nleb nzero (reduction_factor self0) = true ->
  after_steps self0 max_iters k self ->
  nleb nzero (demon_energy self) = true.
Proof.
  intros (Hafford & Hdown & Hmul & Hpow) Hinit Hmax Hrf Hrun.
  induction Hrun as [|k fuel consgraph f fd self w self' w' Hrun IH Hstep].
  - exact Hinit.
  - apply after_steps_config in Hrun. destruct Hrun as [Hc Hit].
    unfold config in Hc. cbn in Hc. injection Hc as _ _ _ _ Himax Hrfac _ _.
    pose proof (step_schedule _ _ _ _ _ _ _ _ Hstep) as (_ & _ & _ & Hceil & _).
    apply step_inv in Hstep.
    destruct Hstep as (s1 & move & prop & retry & ar & Hd & ->).
    destruct (record_iteration_demon (is_log_step self) move prop retry ar s1)
      as [Hdem Hdmax].
    rewrite Hdmax in Hceil. rewrite Hdem.
    pose proof (update_demon_energy_max_spec s1) as Hs. cbv zeta in Hs.
    destruct Hs as (_ & _ & -> & _).
    assert (Hdpos : nleb nzero (demon_energy s1) = true).
    { apply step_decide_demon in Hd.
      destruct Hd as [->|(delta & Hcond & ->)]; [exact IH|].
      apply orb_true_iff in Hcond. destruct Hcond as [Hcan|Hdownhill].
      - apply Hafford. exact Hcan.
      - apply Hdown; assumption. }
    destruct (ngtb (demon_energy s1) _); [|exact Hdpos].
    rewrite Hceil, Himax, Hrfac, Hit. apply Hmul; [exact Hmax|].
    apply Hpow; [exact Hrf|lia].
Qed.

(** ** A negative bound *)

(** X13: the bound stops the loop only when the counter of [enumerate]
    reaches it, which a negative bound never allows: on a generator that
    keeps yielding unrealizable candidates the loop then never ends,
    whatever fuel it is given. *)
Theorem negative_bound_never_stops
    (endless : Gen -> Prop) fuel propose_func consgraph temp fd self w :
  (forall g s, endless g ->
     exists m g', next g s = Some (m, g') /\ endless g' /\
                  fst (fst (apply m s)) = false) ->
  endless (propose_func consgraph (w_state w) fd temp) ->
  max_invalid_candidates self < 0 ->
  retry_attempt_proposals fuel propose_func consgraph temp fd self w = Timeout.
Proof.
  intros Hgen Hstart Hneg. unfold retry_attempt_proposals.
  assert (Hloop : forall n gen idx move retry (self1 : Solver) w1,
             endless gen -> 0 <= idx -> max_invalid_candidates self1 < 0 ->
             retry_loop n consgraph fd gen idx move retry self1 w1 = Timeout).
  { induction n as [|n IH]; intros gen idx move retry self1 w1 Hend Hidx Hneg1;
      cbn [retry_loop]; [reflexivity|].
    destruct (Hgen gen (w_state w1) Hend) as (m & gen' & -> & Hend' & Hfail).
    destruct (Z.eqb_spec idx (max_invalid_candidates self1)) as [Heq|_]; [lia|].
    cbn [w_state call]. destruct (apply m (w_state w1)) as [[ok m1] s1].
    cbn in Hfail. subst ok. apply IH; [exact Hend'|lia|exact Hneg1]. }
  apply Hloop; [exact Hstart|lia|exact Hneg].
Qed.

(** ** A key missing from the memo computed from scratch *)

Lemma report_out_of_sync_missing shared test_memo before n after :
  memo_covered shared test_memo before ->
  is_Some (shared !! memo_key n) ->
  test_memo !! memo_key n = None ->
  forall w,
    report_out_of_sync shared test_memo (before ++ n :: after) w =
      (mkWorld (w_state w) (w_rng w)
         (w_calls w ++
          map Reported (List.filter (out_of_sync shared test_memo) before)),
       Some (memo_key n)).
Proof.
  intros Hcov [lazy Hlazy] Hmiss.
  induction before as [|n0 before IH]; intros w; cbn [app report_out_of_sync List.filter].
  - rewrite Hlazy, Hmiss. cbn. rewrite app_nil_r. destruct w; reflexivity.
  - assert (Hcov' : memo_covered shared test_memo before).
    { intros n' Hin. apply Hcov. right. exact Hin. }
    specialize (IH Hcov'). unfold out_of_sync at 1.
    pose proof (Hcov n0 (or_introl eq_refl)) as Hn0.
    destruct (shared !! memo_key n0) as [lazy0|]; [|apply IH].
    destruct Hn0 as [fresh Hfresh]; [eexists; reflexivity|]. rewrite Hfresh.
    destruct (val_eqb fresh lazy0); cbn [negb]; [apply IH|].
    rewrite IH. cbn. rewrite <- app_assoc. reflexivity.
Qed.

(** X14: when the losses differ and the memo computed from scratch lacks
    the key of a traversed node that the shared memo has, the cross check
    raises [KeyError] for the first such key, after the reports of the
    out-of-sync nodes traversed before it, and not the [ValueError] with the
    two losses. *)
Theorem validate_lazy_eval_missing_key
    consgraph prop fd self w before n after :
  let real := fst (evaluate_problem true consgraph (w_state w) fd ∅) in
  let test_memo := snd (evaluate_problem true consgraph (w_state w) fd ∅) in
  neqb (loss real) (loss prop) = false ->
  traverse consgraph = before ++ n :: after ->
  memo_covered (eval_memo self) test_memo before ->
  is_Some (eval_memo self !! memo_key n) ->
  test_memo !! memo_key n = None ->
  validate_lazy_eval consgraph prop fd self w =
    Raise (self,
           mkWorld (w_state w) (w_rng w)
             (w_calls w ++
              map Reported
                (List.filter (out_of_sync (eval_memo self) test_memo) before)))
          (KeyError (memo_key n)).
Proof.
  cbv zeta. unfold validate_lazy_eval.
  destruct (evaluate_problem true consgraph (w_state w) fd ∅) as [real tm].
  cbn [fst snd]. intros -> -> Hcov Hsome Hmiss.
  rewrite (report_out_of_sync_missing _ _ _ _ _ Hcov Hsome Hmiss). reflexivity.
Qed.

End Solver.

Arguments max_invalid_candidates {num Key _ _ Move Val EvalResult} s.
Arguments print_report_freq {num Key _ _ Move Val EvalResult} s.
Arguments initial_demon_energy {num Key _ _ Move Val EvalResult} s.
Arguments initial_demon_energy_max {num Key _ _ Move Val EvalResult} s.
Arguments reduction_factor {num Key _ _ Move Val EvalResult} s.
Arguments eval_memo {num Key _ _ Move Val EvalResult} s.
Arguments stats {num Key _ _ Move Val EvalResult} s.
Arguments demon_energy {num Key _ _ Move Val EvalResult} s.
Arguments demon_energy_max {num Key _ _ Move Val EvalResult} s.
Arguments curr_iteration {num Key _ _ Move Val EvalResult} s.
Arguments curr_result {num Key _ _ Move Val EvalResult} s.
Arguments last_eval_result {num Key _ _ Move Val EvalResult} s.
Arguments w_state {State Move Node Rng} w.
Arguments w_rng {State Move Node Rng} w.
Arguments w_calls {State Move Node Rng} w.
Arguments is_pulled {Move Node} c.
Arguments is_applied {Move Node} c.
Arguments is_evaluated {Move Node} c.
Arguments count_calls {Move Node} p l.
Arguments is_reverted {Move Node} c.
Arguments is_accepted {Move Node} c.

(** * A scene on a line

    A small instance on which the solver runs: the state is the position of
    one object on the integer line, a constraint node is an anchor whose
    cost is the distance of the object to it, and a move shifts the object.
    A move that is not realizable fails without moving anything; every move
    remembers where the object was, for [revert]. *)

Module Line.

Record Move := mkMove {
  shift : Z;
  realizable : bool;
  backup : option Z
}.

#[export] Instance Move_protocol : MoveProtocol Z Move := {|
  apply m s :=
    if realizable m
    then (true, mkMove (shift m) true (Some s), s + shift m)
    else (false, mkMove (shift m) false (Some s), s);
  revert m s := match backup m with Some b => b | None => s end;
  accept m s := s
|}.

(** A generator is a script of candidates and a position in it; the script
    may go on for ever. *)
Record Gen := mkGen {
  script : nat -> option Move;
  pos : nat
}.

Definition next (g : Gen) (s : Z) : option (Move * Gen) :=
  match script g (pos g) with
  | Some m => Some (m, mkGen (script g) (S (pos g)))
  | None => None
  end.

(** The generator of a finite list of candidates. *)
Definition of_list (l : list Move) : Gen := mkGen (fun i => nth_error l i) 0.

(** The generator that yields the same candidate again and again. *)
Definition forever (m : Move) : Gen := mkGen (fun _ => Some m) 0.

Record Eval (num : Type) := mkEval {
  e_loss : num;
  e_viol : Z
}.
Arguments mkEval {num}.
Arguments e_loss {num}.
Arguments e_viol {num}.

(** The cost of anchor [n] with the object at [s]; an anchor further than
    100 away is a violation. *)
Definition cost (s n : Z) : Z := Z.abs (s - n).

(** Evaluation over the anchors of the graph, reusing and filling the memo. *)
Fixpoint evaluate_nodes (s : Z) (nodes : list Z) (memo : gmap Z Z)
    : Z * Z * gmap Z Z :=
  match nodes with
  | [] => (0, 0, memo)
  | n :: nodes =>
    let v := match memo !! n with Some v => v | None => cost s n end in
    let '(l, c, memo) := evaluate_nodes s nodes (<[n := v]> memo) in
    (v + l, (if 100 <? v then 1 else 0) + c, memo)
  end.

Definition evaluate_problem (_ : bool) (g : list Z) (s : Z) (_ : unit)
    (memo : gmap Z Z) : Eval Q * gmap Z Z :=
  let '(l, c, memo) := evaluate_nodes s g memo in
  (mkEval (inject_Z l) c, memo).

(** Eviction drops every entry: more than needed, never too little. *)
Definition evict_memo_for_move (_ : list Z) (_ : Z) (_ : gmap Z Z) (_ : Move)
    : gmap Z Z := ∅.

(** Random draws are read off a list; 1 when the list is used up. *)
Definition uniform {num : Type} (one : num) (rng : list num) : num * list num :=
  match rng with
  | [] => (one, [])
  | d :: rng => (d, rng)
  end.

Definition Solver (num : Type) : Type := @Solver num Z _ _ Move Z (Eval num).
Definition World (num : Type) : Type := @World Z Move Z (list num).

Definition accept_move {num : Type} {HA : Arith num} (one : num)
    (delta_energy : num) (prop_result : Eval num) (self : Solver num)
    (w : World num) :=
  accept_move Z Z (list num) (Eval num) e_viol (uniform one)
    delta_energy prop_result self w.

Definition calculate_delta_energy {num : Type} {HA : Arith num}
    (prop_result : Eval num) (self : Solver num) (w : World num) :=
  calculate_delta_energy Z Z (list num) (Eval num) e_loss prop_result self w.

Definition validate_lazy_eval (g : list Z) (prop_result : Eval Q)
    (self : Solver Q) (w : World Q) :=
  validate_lazy_eval Z Z (list Z) unit (list Q) (Eval Q) e_loss evaluate_problem
    id id Z.eqb g prop_result tt self w.

Definition retry_attempt_proposals (gin : MoveConfig) (fuel : nat) (gen : Gen)
    (g : list Z) (temp : Q) (self : Solver Q) (w : World Q) :=
  retry_attempt_proposals Z Z (list Z) unit Gen (list Q) (Eval Q) e_loss
    evaluate_problem evict_memo_for_move id id Z.eqb next gin fuel
    (fun _ _ _ _ => gen) g temp tt self w.

Definition step (gin : MoveConfig) (fuel : nat) (g : list Z) (gen : Gen)
    (self : Solver Q) (w : World Q) :=
  step Z Z (list Z) unit Gen (list Q) (Eval Q) e_loss e_viol evaluate_problem
    evict_memo_for_move id id Z.eqb next (uniform 1%Q) gin fuel g
    (fun _ _ _ _ => gen) tt self w.

(** The solver as its constructor leaves it, with the default energies 100
    and 200 and reduction factor 0.85, and after [reset]. *)
Definition configured (max_invalid : Z) : Solver Q :=
  mkSolver Z (Eval Q) max_invalid 1 0 100%Q 200%Q (85 # 100)%Q 0 None ∅ []
    100%Q 200%Q 0 None None.

Definition fresh (max_invalid : Z) : Solver Q :=
  reset Z (Eval Q) 10 (configured max_invalid).

Definition world (s : Z) (rng : list Q) : World Q := mkWorld Z (list Q) s rng [].

(** The same solver over binary64, with a current result of loss [10.0]
    and two violations. *)
Definition fresh_float : Solver float :=
  mkSolver Z (Eval float) 5 1 0 100%float 200%float 0x1.b333333333333p-1%float
    10 None ∅ [] 100%float 200%float 0 (Some (mkEval 10%float 2)) None.

Definition world_float (rng : list float) : World float :=
  mkWorld Z (list float) 0 rng [].

(** A candidate that cannot be realized, and the calls of the iteration
    that tries it with the object at [s]. *)
Definition unrealizable : Move := mkMove 1 false None.

Definition failed_round (s : Z) : list (Call Move Z) :=
  [Pulled unrealizable;
   Applied (mkMove 1 false (Some s)) false;
   Evicted (mkMove 1 false (Some s));
   Reverted (mkMove 1 false (Some s))].

(** The solver and world in which a call of [step] ends. *)
Definition after (c : outcome (exn Q Z) (Solver Q * World Q) unit)
    : Solver Q * World Q :=
  match c with
  | Ret s _ | Raise s _ => s
  | Timeout => (configured 0, world 0 [])
  end.

(** Two iterations from position 3 with anchors 0 and 5: the first finds an
    unrealizable candidate and then one that moves the object by 2, the
    second finds no candidate at all. *)
Definition two_moves : Gen := of_list [unrealizable; mkMove 2 true None].

Definition after_one : Solver Q * World Q :=
  after (step default_move_config 6 [0; 5] two_moves (fresh 5) (world 3 [])).

Definition after_two : Solver Q * World Q :=
  after (step default_move_config 6 [0; 5] (of_list []) (fst after_one) (snd after_one)).

(** A shared memo whose entry for anchor 0 is stale (7 instead of 3), and
    the result that a lazy evaluation computes from it at position 3. *)
Definition stale_memo : gmap Z Z := <[5 := 2]> (<[0 := 7]> ∅).

Definition stale_solver : Solver Q := set_eval_memo Z (Eval Q) stale_memo (fresh 5).

Definition stale_result : Eval Q := mkEval 9%Q 0.

(** ** The demon rule on the scene *)

(** The scenario of the specification in binary64: current loss 10.0,
    proposed loss 9.0, equal violation counts, demon energy 100.  The
    energy difference is -1.0, the move is accepted and the demon holds
    101.0 afterwards. *)
Lemma downhill_move_accepted :
  calculate_delta_energy (mkEval 9%float 2) fresh_float (world_float []) =
    Ret (fresh_float, world_float []) (-1)%float /\
  exists self' w',
    accept_move 1%float (-1)%float (mkEval 9%float 2) fresh_float (world_float []) =
      Ret (self', w')
          (mkAcceptResult (-1)%float 100%float 200%float (Some true)) /\
    demon_energy self' = 101%float.
Proof.
  split; [reflexivity|].
  destruct (accept_move_equal_violations Z Z (list float) (Eval float) e_viol
              (uniform 1%float) (-1)%float (mkEval 9%float 2) (mkEval 10%float 2)
              fresh_float (world_float []) eq_refl eq_refl)
    as (self' & w' & a & Heq & Hyes & _).
  destruct (Hyes eq_refl) as [-> Hde].
  exists self', w'. split; [exact Heq|exact Hde].
Defined.

(** A move that the demon cannot afford (energy difference 140 against a
    demon energy of 100) is still accepted when the draw is 0.005, and the
    demon then keeps its 100 instead of paying 140: acceptance does not
    imply the condition on the energies, nor the payment. *)
Lemma lucky_move_accepted_unpaid :
  accept_move 1%float 140%float (mkEval 150%float 2) fresh_float
    (world_float [0x1.47ae147ae147bp-8%float]) =
    Ret (fresh_float, world_float [])
        (mkAcceptResult 140%float 100%float 200%float (Some true)) /\
  (ngeb (demon_energy fresh_float) 140%float || nleb 140%float nzero) = false /\
  neqb (demon_energy fresh_float) (nsub (demon_energy fresh_float) 140%float) = false.
Proof. repeat split. Qed.

(** With fewer violations (1 against 2) a proposal is accepted although its
    loss is 1000 higher; with more (3 against 2) it is rejected although its
    loss is 1000 lower. *)
Lemma violations_dominate_on_scene :
  accept_move 1%float 1000%float (mkEval 1010%float 1) fresh_float (world_float []) =
    Ret (fresh_float, world_float [])
        (mkAcceptResult 1000%float 100%float 200%float (Some true)) /\
  accept_move 1%float (-1000)%float (mkEval (-990)%float 3) fresh_float
    (world_float []) =
    Ret (fresh_float, world_float [])
        (mkAcceptResult (-1000)%float 100%float 200%float (Some false)).
Proof.
  split.
  - apply (accept_move_violations_dominate Z Z (list float) (Eval float) e_viol
             (uniform 1%float) 1000%float (mkEval 1010%float 1) (mkEval 10%float 2)
             fresh_float (world_float []) eq_refl).
    reflexivity.
  - apply (accept_move_violations_dominate Z Z (list float) (Eval float) e_viol
             (uniform 1%float) (-1000)%float (mkEval (-990)%float 3)
             (mkEval 10%float 2) fresh_float (world_float []) eq_refl).
    reflexivity.
Defined.

(** The second scenario of the specification: proposed loss 150.0, energy
    difference 140 against a demon energy of 100, draw 0.5.  The move is
    rejected and the solver is as before. *)
Lemma uphill_move_rejected :
  exists self' w',
    accept_move 1%float 140%float (mkEval 150%float 2) fresh_float
      (world_float [0.5%float]) =
      Ret (self', w')
          (mkAcceptResult 140%float 100%float 200%float (Some false)) /\
    self' = fresh_float /\
    demon_energy self' = 100%float.
Proof.
  assert (Hpoor : ngeb (demon_energy fresh_float) 140%float = false)
    by (vm_compute; reflexivity).
  assert (Hdraw : nltb (fst (uniform 1%float (w_rng (world_float [0.5%float]))))
                    random_acceptance_chance = false)
    by (vm_compute; reflexivity).
  assert (Hworse : nleb 140%float nzero = false) by (vm_compute; reflexivity).
  destruct (accept_move_reject_frame Z Z (list float) (Eval float) e_viol
              (uniform 1%float) 140%float (mkEval 150%float 2) (mkEval 10%float 2)
              fresh_float (world_float [0.5%float]) eq_refl eq_refl Hpoor Hdraw)
    as (self' & w' & a & Heq & Hkeep & Hno).
  pose proof (Hno Hworse) as Ha. subst a.
  destruct (Hkeep eq_refl) as [Hself Hde].
  exists self', w'. split; [exact Heq|]. split; [exact Hself|].
  rewrite Hde. reflexivity.
Defined.

(** ** The retry loop on the scene *)

(** Three unrealizable candidates, then the generator is exhausted, with
    [max_invalid_candidates = 5]. *)
Definition three_unrealizable : Gen :=
  of_list [unrealizable; unrealizable; unrealizable].

Lemma three_unrealizable_run :
  retry_attempt_proposals default_move_config 6 three_unrealizable [0; 5] 100%Q
    (fresh 5) (world 3 []) =
    Ret (fresh 5,
         mkWorld Z (list Q) 3 [] (failed_round 3 ++ failed_round 3 ++ failed_round 3))
        (Some (mkMove 1 false (Some 3)), None, Some 2).
Proof. vm_compute. reflexivity. Qed.

(** The loop hands back the third candidate and its index 2, not
    [(None, None, 3)]. *)
Lemma three_unrealizable_moves_returned :
  retry_attempt_proposals default_move_config 6 three_unrealizable [0; 5] 100%Q
    (fresh 5) (world 3 []) =
    Ret (fresh 5,
         mkWorld Z (list Q) 3 [] (failed_round 3 ++ failed_round 3 ++ failed_round 3))
        (Some (mkMove 1 false (Some 3)), None, Some 2) /\
  forall s,
    retry_attempt_proposals default_move_config 6 three_unrealizable [0; 5] 100%Q
      (fresh 5) (world 3 []) <> Ret s (None, None, Some 3).
Proof.
  split; [exact three_unrealizable_run|].
  intros s. rewrite three_unrealizable_run. discriminate.
Qed.

(** The run of three unrealizable candidates ends, and its triple is the
    last candidate pulled with the number of pulls less one. *)
Lemma three_unrealizable_moves_last :
  outcome_state
    (retry_attempt_proposals default_move_config 6 three_unrealizable [0; 5] 100%Q
       (fresh 5) (world 3 [])) <> None /\
  exists tr,
    failed_round 3 ++ failed_round 3 ++ failed_round 3 = [] ++ tr /\
    ((tr = [] /\ Some (mkMove 1 false (Some 3)) = None /\ Some 2 = None) \/
     (exists m,
        (last tr = Some (Reverted m) \/ last tr = Some (Pulled m)) /\
        Some (mkMove 1 false (Some 3)) = Some m /\
        Some 2 = Some (count_calls is_pulled tr - 1))).
Proof.
  pose proof (retry_attempt_proposals_no_valid_move Z Z (list Z) unit Gen (list Q)
                (Eval Q) e_loss evaluate_problem evict_memo_for_move id id Z.eqb
                next default_move_config 6 (fun _ _ _ _ => three_unrealizable)
                [0; 5] 100%Q tt (fresh 5) (world 3 [])) as [Hends Hshape].
  split.
  - apply Hends; cbn; lia.
  - destruct (Hshape _ (f_equal outcome_state three_unrealizable_run))
      as (tr & Hcalls & _ & Hlast).
    exists tr. split; [exact Hcalls|].
    exact (Hlast _ _ three_unrealizable_run).
Defined.

(** A generator that never stops yielding unrealizable candidates, with
    [max_invalid_candidates = 5]: the loop pulls six candidates. *)
Lemma endless_generator_six_pulls :
  max_invalid_candidates (fresh 5) = 5 /\
  exists s,
    outcome_state
      (retry_attempt_proposals default_move_config 7 (forever unrealizable) [0; 5]
         100%Q (fresh 5) (world 3 [])) = Some s /\
    count_calls is_pulled (w_calls (snd s)) = 6 /\
    count_calls is_applied (w_calls (snd s)) = 5.
Proof.
  split; [reflexivity|]. eexists. split; [vm_compute; reflexivity|].
  split; vm_compute; reflexivity.
Qed.

Lemma endless_generator_bounded :
  exists s' tr,
    outcome_state
      (retry_attempt_proposals default_move_config 6 (forever unrealizable) [0; 5]
         100%Q (fresh 5) (world 3 [])) = Some s' /\
    w_calls (snd s') = w_calls (world 3 []) ++ tr /\
    count_calls is_pulled tr <= max_invalid_candidates (fresh 5) + 1 /\
    count_calls is_applied tr <= max_invalid_candidates (fresh 5) /\
    count_calls is_evaluated tr <= count_calls is_applied tr /\
    count_calls is_evaluated tr <= 1.
Proof.
  apply (retry_attempt_proposals_bound Z Z (list Z) unit Gen (list Q) (Eval Q)
           e_loss evaluate_problem evict_memo_for_move id id Z.eqb next
           default_move_config 6 (fun _ _ _ _ => forever unrealizable) [0; 5]
           100%Q tt (fresh 5) (world 3 [])); cbn; lia.
Defined.

(** On the run of three unrealizable candidates, every failed [apply] is
    followed by the eviction and the revert of the same move; so does the
    first iteration, which continues from the reverted state. *)
Lemma failed_candidates_on_scene :
  (exists tr,
     failed_round 3 ++ failed_round 3 ++ failed_round 3 = [] ++ tr /\
     forall pre m post,
       tr = pre ++ Applied m false :: post ->
       exists rest,
         post = Evicted m :: Reverted m :: rest /\
         (rest = [] \/ exists m2 rest', rest = Pulled m2 :: rest')) /\
  retry_loop Z Z (list Z) unit Gen (list Q) (Eval Q) e_loss evaluate_problem
    evict_memo_for_move id id Z.eqb next default_move_config 6 [0; 5] tt
    three_unrealizable 0 None None (fresh 5) (world 3 []) =
  retry_loop Z Z (list Z) unit Gen (list Q) (Eval Q) e_loss evaluate_problem
    evict_memo_for_move id id Z.eqb next default_move_config 5 [0; 5] tt
    (mkGen (script three_unrealizable) 1) 1 (Some (mkMove 1 false (Some 3)))
    (Some 0) (set_eval_memo Z (Eval Q) ∅ (fresh 5))
    (mkWorld Z (list Q) 3 [] (failed_round 3)).
Proof.
  pose proof (failed_apply_evicted_then_reverted Z Z (list Z) unit Gen (list Q)
                (Eval Q) e_loss evaluate_problem evict_memo_for_move id id Z.eqb
                next default_move_config 5 (fun _ _ _ _ => three_unrealizable)
                [0; 5] 100%Q tt (fresh 5) (world 3 [])) as [_ Hiter].
  pose proof (failed_apply_evicted_then_reverted Z Z (list Z) unit Gen (list Q)
                (Eval Q) e_loss evaluate_problem evict_memo_for_move id id Z.eqb
                next default_move_config 6 (fun _ _ _ _ => three_unrealizable)
                [0; 5] 100%Q tt (fresh 5) (world 3 [])) as [Hrun _].
  split.
  - exact (Hrun _ (f_equal outcome_state three_unrealizable_run)).
  - apply (Hiter three_unrealizable 0 None None unrealizable
             (mkGen (script three_unrealizable) 1) (mkMove 1 false (Some 3)) 3).
    + reflexivity.
    + cbn. lia.
    + reflexivity.
Defined.

(** ** Whole iterations on the scene *)

(** The solvers that [reset] and completed iterations reach on the scene. *)
Definition reachable : nat -> Solver Q -> Prop :=
  after_steps Z Z (list Z) unit Gen (list Q) (Eval Q) e_loss e_viol
    evaluate_problem evict_memo_for_move id id Z.eqb next (uniform 1%Q)
    default_move_config (configured 5) 10.

Lemma first_step_returns :
  step default_move_config 6 [0; 5] two_moves (fresh 5) (world 3 []) =
    Ret (fst after_one, snd after_one) tt.
Proof. vm_compute. reflexivity. Qed.

Lemma second_step_returns :
  step default_move_config 6 [0; 5] (of_list []) (fst after_one) (snd after_one) =
    Ret (fst after_two, snd after_two) tt.
Proof. vm_compute. reflexivity. Qed.

Lemma after_one_reachable : reachable 1 (fst after_one).
Proof.
  unfold reachable. eapply after_step; [apply after_reset|].
  exact first_step_returns.
Qed.

Lemma after_two_reachable : reachable 2 (fst after_two).
Proof.
  unfold reachable. eapply after_step; [exact after_one_reachable|].
  exact second_step_returns.
Qed.

(** After the first completed iteration the ceiling is still 200, not
    [200 * 0.85 ** 1 = 170]. *)
Lemma ceiling_after_first_step :
  reachable 1 (fst after_one) /\
  demon_energy_max (fst after_one) = 200%Q /\
  nmul (initial_demon_energy_max (configured 5))
       (npow (reduction_factor (configured 5)) 1) = 170%Q /\
  neqb (demon_energy_max (fst after_one))
       (nmul (initial_demon_energy_max (configured 5))
             (npow (reduction_factor (configured 5)) 1)) = false.
Proof.
  split; [exact after_one_reachable|]. repeat split; vm_compute; reflexivity.
Qed.

(** After the second the counter is 2, the ceiling is
    [200 * 0.85 ** 1 = 170] and the demon, clamped, does not exceed it. *)
Lemma ceiling_after_two_steps :
  curr_iteration (fst after_two) = 2 /\
  demon_energy_max (fst after_two) = 170%Q /\
  ngtb (demon_energy (fst after_two)) (demon_energy_max (fst after_two)) = false.
Proof.
  destruct (demon_energy_max_after_steps Z Z (list Z) unit Gen (list Q) (Eval Q)
              e_loss e_viol evaluate_problem evict_memo_for_move id id Z.eqb next
              (uniform 1%Q) default_move_config (configured 5) 10 2%nat
              (fst after_two) after_two_reachable)
    as (Hit & Hmax & Hle & _).
  split; [exact Hit|]. split; [exact Hmax|]. apply Hle. discriminate.
Defined.

Lemma apply_all_or_nothing (m : Move) (s : Z) (m1 : Move) (s1 : Z) :
  apply m s = (false, m1, s1) -> s1 = s.
Proof. cbn. destruct (realizable m); intros [= _ <-]; reflexivity. Qed.

Lemma revert_restores (m : Move) (s : Z) (ok : bool) (m1 : Move) (s1 : Z) :
  apply m s = (ok, m1, s1) -> revert m1 s1 = s.
Proof. cbn. destruct (realizable m); intros [= _ <- _]; reflexivity. Qed.

(** The first iteration on the scene reverts the unrealizable candidate and
    accepts the shift by 2: the state on return is the accepted one. *)
Lemma first_step_state :
  w_state (snd after_one) = 5 /\
  ((w_state (snd after_one) = w_state (world 3 []) /\
    curr_result (fst after_one) =
      curr_result
        (seed_curr_result Z Z (list Z) unit (list Q) (Eval Q) evaluate_problem
           [0; 5] tt (fresh 5) (world 3 []))) \/
   (exists m m1 st r,
      apply m (w_state (world 3 [])) = (true, m1, st) /\
      w_state (snd after_one) = accept m1 st /\
      curr_result (fst after_one) = Some r /\
      last_eval_result (fst after_one) = Some r)).
Proof.
  split; [reflexivity|].
  exact (step_state_atomic Z Z (list Z) unit Gen (list Q) (Eval Q) e_loss e_viol
           evaluate_problem evict_memo_for_move id id Z.eqb next (uniform 1%Q)
           default_move_config 6 [0; 5] (fun _ _ _ _ => two_moves) tt (fresh 5)
           (world 3 []) (fst after_one) (snd after_one)
           apply_all_or_nothing revert_restores first_step_returns).
Defined.

(** An iteration on the scene whose generator yields nothing. *)
Lemma empty_generator_on_scene :
  retry_attempt_proposals default_move_config 1 (of_list []) [0; 5] 100%Q
    (seed_curr_result Z Z (list Z) unit (list Q) (Eval Q) evaluate_problem
       [0; 5] tt (fresh 5) (world 3 []))
    (world 3 []) =
    Ret (seed_curr_result Z Z (list Z) unit (list Q) (Eval Q) evaluate_problem
           [0; 5] tt (fresh 5) (world 3 []),
         world 3 [])
        (None, None, None) /\
  exists self' curr,
    step default_move_config 1 [0; 5] (of_list []) (fresh 5) (world 3 []) =
      Ret (self', world 3 []) tt /\
    curr_result self' = Some curr /\
    curr_iteration self' = 1 /\
    map st_accept (stats self') = [None] /\
    map st_retry (stats self') = [None].
Proof.
  destruct (empty_generator_iteration Z Z (list Z) unit Gen (list Q) (Eval Q)
              e_loss e_viol evaluate_problem evict_memo_for_move id id Z.eqb next
              (uniform 1%Q) default_move_config 0 (fun _ _ _ _ => of_list [])
              [0; 5] tt (fresh 5) (world 3 []) eq_refl)
    as (Hretry & _ & _ & self' & curr & Hstep & _ & Hcurr & _ & Hit & Hstats).
  split; [exact Hretry|].
  exists self', curr. split; [exact Hstep|]. split; [exact Hcurr|].
  split; [exact Hit|]. rewrite Hstats. split; reflexivity.
Defined.

(** ** The cross check on the scene *)

Lemma stale_result_is_lazy :
  evaluate_problem false [0; 5] 3 tt (<[0 := 7]> ∅) = (stale_result, stale_memo).
Proof. vm_compute. reflexivity. Qed.

Lemma stale_memo_covered :
  memo_covered Z Z id stale_memo
    (snd (evaluate_problem true [0; 5] 3 tt ∅)) [0; 5].
Proof.
  intros n [<-|[<-|[]]] _; vm_compute; eexists; reflexivity.
Qed.

(** With the object at 3 the loss from scratch is 5, the lazy result built
    on the stale entry says 9: the cross check reports anchor 0 and raises
    [ValueError] with both losses; had the losses agreed it would have
    returned. *)
Lemma stale_memo_detected :
  validate_lazy_eval [0; 5] stale_result stale_solver (world 3 []) =
    Raise (stale_solver, mkWorld Z (list Q) 3 [] [Reported 0])
          (ValueError 5%Q 9%Q) /\
  validate_lazy_eval [0; 5] (mkEval 5%Q 0) stale_solver (world 3 []) =
    Ret (stale_solver, world 3 []) tt.
Proof.
  pose proof (validate_lazy_eval_spec Z Z (list Z) unit (list Q) (Eval Q) e_loss
                evaluate_problem evict_memo_for_move id id Z.eqb [0; 5]
                stale_result tt stale_solver (world 3 [])) as Hstale.
  pose proof (validate_lazy_eval_spec Z Z (list Z) unit (list Q) (Eval Q) e_loss
                evaluate_problem evict_memo_for_move id id Z.eqb [0; 5]
                (mkEval 5%Q 0) tt stale_solver (world 3 [])) as Hsync.
  cbv zeta in Hstale, Hsync.
  destruct Hstale as (_ & _ & _ & Hraise & _). destruct Hsync as (Hret & _).
  split.
  - unfold validate_lazy_eval. rewrite Hraise.
    + vm_compute. reflexivity.
    + vm_compute. reflexivity.
    + exact stale_memo_covered.
  - apply Hret. vm_compute. reflexivity.
Defined.

End Line.

(** * More runs on the line *)

Module Runs.

#[local] Existing Instance Line.Move_protocol.

(** Where a call of the retry loop ended. *)
Definition retried
    (c : outcome (exn Q Z) (Line.Solver Q * Line.World Q)
           (option Line.Move * option (Line.Eval Q) * option Z))
    : Line.Solver Q * Line.World Q :=
  match c with
  | Ret s _ | Raise s _ => s
  | Timeout => (Line.configured 0, Line.world 0 [])
  end.

(** The retry loop on an unrealizable candidate followed by a shift by 2. *)
Definition two_moves_call :=
  Line.retry_attempt_proposals default_move_config 6 Line.two_moves [0; 5] 100%Q
    (Line.fresh 5) (Line.world 3 []).

(** An eviction policy that evicts nothing, and the cross check enabled. *)
Definition keep_memo (_ : list Z) (_ : Z) (memo : gmap Z Z) (_ : Line.Move)
    : gmap Z Z := memo.

Definition checked : MoveConfig := mkMoveConfig true true.

(** One iteration with that policy from the stale memo of [Line]: the
    object moves from 3 to 5 and the stale entries survive. *)
Definition careless_call :=
  step Z Z (list Z) unit Line.Gen (list Q) (Line.Eval Q) Line.e_loss Line.e_viol
    Line.evaluate_problem keep_memo id id Z.eqb Line.next (Line.uniform 1%Q)
    checked 6 [0; 5] (fun _ _ _ _ => Line.of_list [Line.mkMove 2 true None]) tt
    Line.stale_solver (Line.world 3 []).

(** A generator all of whose candidates are the unrealizable one. *)
Definition endless (g : Line.Gen) : Prop :=
  forall i, Line.script g i = Some Line.unrealizable.

(** A traversal that also visits anchor 9, which evaluation does not. *)
Definition traverse_beyond (g : list Z) : list Z := g ++ [9].

Definition beyond_solver : Line.Solver Q :=
  set_eval_memo Z (Line.Eval Q) (<[9 := 1]> Line.stale_memo) (Line.fresh 5).

Lemma two_moves_run :
  two_moves_call =
    Ret (fst (retried two_moves_call), snd (retried two_moves_call))
        (Some (Line.mkMove 2 true (Some 3)), Some (Line.mkEval 5%Q 0), Some 1).
Proof. vm_compute. reflexivity. Qed.

Lemma careless_step_raises :
  careless_call =
    Raise (fst (Line.after careless_call), snd (Line.after careless_call))
          (ValueError 5%Q 9%Q).
Proof. vm_compute. reflexivity. Qed.

Lemma revert_restores_apply (m : Line.Move) (s : Z) (ok : bool) (m1 : Line.Move) (s1 : Z) :
  apply m s = (ok, m1, s1) -> revert m1 s1 = s.
Proof. cbn. destruct (Line.realizable m); intros [= _ <- _]; reflexivity. Qed.

Lemma Q_ordered_arith : @ordered_arith Q _ _.
Proof.
  repeat split.
  - intros a b Hle. cbn in *. apply Qle_bool_iff. apply Qle_bool_iff in Hle.
    rewrite Qred_correct. apply (Qplus_le_l _ _ b). ring_simplify. exact Hle.
  - intros a b Ha Hb. cbn in *. apply Qle_bool_iff.
    apply Qle_bool_iff in Ha. apply Qle_bool_iff in Hb.
    rewrite Qred_correct. apply (Qplus_le_l _ _ b). ring_simplify.
    apply Qle_trans with 0%Q; assumption.
  - intros a b Ha Hb. cbn in *. apply Qle_bool_iff.
    apply Qle_bool_iff in Ha. apply Qle_bool_iff in Hb.
    rewrite Qred_correct. apply Qmult_le_0_compat; assumption.
  - intros a k Ha _. cbn in *. apply Qle_bool_iff. apply Qle_bool_iff in Ha.
    rewrite Qred_correct. apply Qpower_0_le. exact Ha.
Qed.

(** ** The retry loop *)

(** The run of three unrealizable candidates leaves the solver and the
    random numbers alone. *)
Lemma three_unrealizable_frame :
  Line.fresh 5 =
    set_eval_memo Z (Line.Eval Q) (eval_memo (Line.fresh 5)) (Line.fresh 5) /\
  w_rng (mkWorld Z (list Q) 3 []
           (Line.failed_round 3 ++ Line.failed_round 3 ++ Line.failed_round 3)) =
    w_rng (Line.world 3 []).
Proof.
  exact (retry_attempt_proposals_frame Z Z (list Z) unit Line.Gen (list Q)
           (Line.Eval Q) Line.e_loss Line.evaluate_problem Line.evict_memo_for_move
           id id Z.eqb Line.next default_move_config 6
           (fun _ _ _ _ => Line.three_unrealizable) [0; 5] 100%Q tt (Line.fresh 5)
           (Line.world 3 []) _ _ (f_equal outcome_state Line.three_unrealizable_run)).
Defined.

(** After one failed candidate the shift by 2 applies: [retry] is 1, the
    number of reverted candidates, and one candidate was evaluated. *)
Lemma two_moves_success :
  exists tr m1,
    w_calls (snd (retried two_moves_call)) = w_calls (Line.world 3 []) ++ tr /\
    Some (Line.mkMove 2 true (Some 3)) = Some m1 /\
    Some 1 = Some (count_calls is_reverted tr) /\
    count_calls is_pulled tr = count_calls is_reverted tr + 1 /\
    count_calls is_evaluated tr = 1.
Proof.
  destruct (retry_attempt_proposals_success Z Z (list Z) unit Line.Gen (list Q)
              (Line.Eval Q) Line.e_loss Line.evaluate_problem
              Line.evict_memo_for_move id id Z.eqb Line.next default_move_config 6
              (fun _ _ _ _ => Line.two_moves) [0; 5] 100%Q tt (Line.fresh 5)
              (Line.world 3 []) _ _ _ _ _ two_moves_run)
    as (tr & m1 & Hcalls & Hmv & _ & Hrt & Hpull & _ & Heval & _).
  exists tr, m1. auto.
Defined.

(** With a bound of -1 the loop is still running after 100 rounds on the
    endless generator. *)
Lemma negative_bound_on_scene :
  Line.retry_attempt_proposals default_move_config 100
    (Line.forever Line.unrealizable) [0; 5] 100%Q (Line.fresh (-1))
    (Line.world 3 []) = Timeout.
Proof.
  apply (negative_bound_never_stops Z Z (list Z) unit Line.Gen (list Q)
           (Line.Eval Q) Line.e_loss Line.evaluate_problem Line.evict_memo_for_move
           id id Z.eqb Line.next default_move_config endless 100
           (fun _ _ _ _ => Line.forever Line.unrealizable) [0; 5] 100%Q tt
           (Line.fresh (-1)) (Line.world 3 [])).
  - intros g s Hg. exists Line.unrealizable, (Line.mkGen (Line.script g) (S (Line.pos g))).
    unfold Line.next. rewrite Hg. split; [reflexivity|]. split; [exact Hg|reflexivity].
  - intros i. reflexivity.
  - cbn. lia.
Defined.

(** ** The demon rule *)

Lemma uphill_run :
  Line.accept_move 1%float 140%float (Line.mkEval 150%float 2) Line.fresh_float
    (Line.world_float [0.5%float]) =
    Ret (Line.fresh_float, Line.world_float [])
        (mkAcceptResult 140%float 100%float 200%float (Some false)).
Proof. reflexivity. Qed.

(** The unaffordable uphill move of [Line] takes one draw, which decides
    it; state and calls are untouched. *)
Lemma uphill_move_one_draw :
  w_state (Line.world_float []) = w_state (Line.world_float [0.5%float]) /\
  w_calls (Line.world_float []) = w_calls (Line.world_float [0.5%float]) /\
  w_rng (Line.world_float []) =
    snd (Line.uniform 1%float (w_rng (Line.world_float [0.5%float]))) /\
  Line.fresh_float = Line.fresh_float.
Proof.
  pose proof (accept_move_randomness Z Z (list float) (Line.Eval float) Line.e_viol
                (Line.uniform 1%float) 140%float (Line.mkEval 150%float 2)
                (Line.mkEval 10%float 2) Line.fresh_float
                (Line.world_float [0.5%float]) _ _ _ eq_refl uphill_run)
    as (Hst & Hcalls & Hdraw).
  vm_compute in Hdraw. destruct Hdraw as (Hrng & _ & Hself).
  split; [exact Hst|]. split; [exact Hcalls|]. split; reflexivity.
Defined.

(** ** Whole iterations *)

Lemma first_step_violations :
  exists c c',
    curr_result
      (seed_curr_result Z Z (list Z) unit (list Q) (Line.Eval Q)
         Line.evaluate_problem [0; 5] tt (Line.fresh 5) (Line.world 3 [])) = Some c /\
    curr_result (fst Line.after_one) = Some c' /\
    Line.e_viol c' <= Line.e_viol c /\
    (c' = c \/ last_eval_result (fst Line.after_one) = Some c').
Proof.
  exact (step_violations_never_increase Z Z (list Z) unit Line.Gen (list Q)
           (Line.Eval Q) Line.e_loss Line.e_viol Line.evaluate_problem
           Line.evict_memo_for_move id id Z.eqb Line.next (Line.uniform 1%Q)
           default_move_config 6 [0; 5] (fun _ _ _ _ => Line.two_moves) tt
           (Line.fresh 5) (Line.world 3 []) _ _ Line.first_step_returns).
Defined.

Lemma first_step_draws :
  w_rng (snd Line.after_one) = w_rng (Line.world 3 []) \/
  (w_rng (snd Line.after_one) = snd (Line.uniform 1%Q (w_rng (Line.world 3 []))) /\
   exists r, last_eval_result (fst Line.after_one) = Some r).
Proof.
  exact (step_draws_at_most_once Z Z (list Z) unit Line.Gen (list Q)
           (Line.Eval Q) Line.e_loss Line.e_viol Line.evaluate_problem
           Line.evict_memo_for_move id id Z.eqb Line.next (Line.uniform 1%Q)
           default_move_config 6 [0; 5] (fun _ _ _ _ => Line.two_moves) tt
           (Line.fresh 5) (Line.world 3 []) _ _ Line.first_step_returns).
Defined.

Lemma first_step_closes_moves :
  exists tr,
    w_calls (snd Line.after_one) = w_calls (Line.world 3 []) ++ tr /\
    count_calls is_applied tr =
      count_calls is_reverted tr + count_calls is_accepted tr /\
    count_calls is_accepted tr <= count_calls is_evaluated tr /\
    count_calls is_evaluated tr <= 1.
Proof.
  exact (step_closes_every_move Z Z (list Z) unit Line.Gen (list Q)
           (Line.Eval Q) Line.e_loss Line.e_viol Line.evaluate_problem
           Line.evict_memo_for_move id id Z.eqb Line.next (Line.uniform 1%Q)
           default_move_config 6 [0; 5] (fun _ _ _ _ => Line.two_moves) tt
           (Line.fresh 5) (Line.world 3 []) _ _ Line.first_step_returns).
Defined.

Lemma first_step_demon :
  exists d,
    (d = demon_energy (Line.fresh 5) \/
     exists delta,
       (ngeb (demon_energy (Line.fresh 5)) delta || nleb delta nzero) = true /\
       d = nsub (demon_energy (Line.fresh 5)) delta) /\
    demon_energy (fst Line.after_one) =
      if ngtb d (demon_energy_max (fst Line.after_one))
      then demon_energy_max (fst Line.after_one) else d.
Proof.
  exact (step_demon_energy Z Z (list Z) unit Line.Gen (list Q)
           (Line.Eval Q) Line.e_loss Line.e_viol Line.evaluate_problem
           Line.evict_memo_for_move id id Z.eqb Line.next (Line.uniform 1%Q)
           default_move_config 6 [0; 5] (fun _ _ _ _ => Line.two_moves) tt
           (Line.fresh 5) (Line.world 3 []) _ _ Line.first_step_returns).
Defined.

(** With the cross check off, an iteration on the endless generator of
    unrealizable candidates returns. *)
Lemma endless_step_returns :
  exists self' w',
    Line.step default_move_config 6 [0; 5] (Line.forever Line.unrealizable)
      (Line.fresh 5) (Line.world 3 []) = Ret (self', w') tt.
Proof.
  apply (step_returns_without_validation Z Z (list Z) unit Line.Gen (list Q)
           (Line.Eval Q) Line.e_loss Line.e_viol Line.evaluate_problem
           Line.evict_memo_for_move id id Z.eqb Line.next (Line.uniform 1%Q)
           default_move_config 6 [0; 5]
           (fun _ _ _ _ => Line.forever Line.unrealizable) tt
           (Line.fresh 5) (Line.world 3 [])).
  - reflexivity.
  - cbn. lia.
  - cbn. lia.
Defined.

(** The careless iteration raises out of the cross check and leaves the
    object at 5, where the checked move put it. *)
Lemma careless_step_abandoned :
  validate_lazy_eval_flag checked = true /\
  (ValueError 5%Q 9%Q : exn Q Z) <> AttributeError /\
  w_state (snd (Line.after careless_call)) = 5 /\
  exists m m1,
    apply m (w_state (Line.world 3 [])) =
      (true, m1, w_state (snd (Line.after careless_call))).
Proof.
  destruct (step_raise Z Z (list Z) unit Line.Gen (list Q) (Line.Eval Q)
              Line.e_loss Line.e_viol Line.evaluate_problem keep_memo id id Z.eqb
              Line.next (Line.uniform 1%Q) checked 6 [0; 5]
              (fun _ _ _ _ => Line.of_list [Line.mkMove 2 true None]) tt
              Line.stale_solver (Line.world 3 []) _ _ _ careless_step_raises)
    as (Hflag & Hne & _ & Hstate).
  split; [exact Hflag|]. split; [exact Hne|]. split; [reflexivity|].
  apply Hstate. exact revert_restores_apply.
Defined.

(** ** Runs *)

Lemma reset_after_two_steps :
  reset Z (Line.Eval Q) 7 (fst Line.after_two) =
    set_stats Z (Line.Eval Q) (stats (fst Line.after_two))
      (set_last_eval_result Z (Line.Eval Q) (last_eval_result (fst Line.after_two))
         (reset Z (Line.Eval Q) 7 (Line.configured 5))).
Proof.
  exact (reset_after_run Z Z (list Z) unit Line.Gen (list Q) (Line.Eval Q)
           Line.e_loss Line.e_viol Line.evaluate_problem Line.evict_memo_for_move
           id id Z.eqb Line.next (Line.uniform 1%Q) default_move_config
           (Line.configured 5) 10 2%nat (fst Line.after_two) 7
           Line.after_two_reachable).
Defined.

(** With report frequency 1 the two iterations leave the rows of
    iterations 0 and 1. *)
Lemma stats_after_two_steps :
  exists rows,
    stats (fst Line.after_two) = stats (Line.configured 5) ++ rows /\
    map st_curr_iteration rows = [0; 1].
Proof.
  exact (stats_cadence Z Z (list Z) unit Line.Gen (list Q) (Line.Eval Q)
           Line.e_loss Line.e_viol Line.evaluate_problem Line.evict_memo_for_move
           id id Z.eqb Line.next (Line.uniform 1%Q) default_move_config
           (Line.configured 5) 10 2%nat (fst Line.after_two)
           Line.after_two_reachable).
Defined.

Lemma demon_after_two_steps :
  nleb nzero (demon_energy (fst Line.after_two)) = true.
Proof.
  apply (demon_energy_nonnegative Z Z (list Z) unit Line.Gen (list Q) (Line.Eval Q)
           Line.e_loss Line.e_viol Line.evaluate_problem Line.evict_memo_for_move
           id id Z.eqb Line.next (Line.uniform 1%Q) default_move_config
           (Line.configured 5) 10 2%nat (fst Line.after_two) Q_ordered_arith).
  - reflexivity.
  - reflexivity.
  - reflexivity.
  - exact Line.after_two_reachable.
Defined.

(** ** The cross check *)

(** The shared memo has an entry for anchor 9, which the traversal visits
    and the evaluation from scratch does not: the cross check reports
    anchor 0 and then raises [KeyError] for 9. *)
Lemma missing_key_on_scene :
  validate_lazy_eval Z Z (list Z) unit (list Q) (Line.Eval Q) Line.e_loss
    Line.evaluate_problem id traverse_beyond Z.eqb [0; 5] Line.stale_result tt
    beyond_solver (Line.world 3 []) =
    Raise (beyond_solver, mkWorld Z (list Q) 3 [] [Reported 0]) (KeyError 9).
Proof.
  rewrite (validate_lazy_eval_missing_key Z Z (list Z) unit (list Q) (Line.Eval Q)
             Line.e_loss Line.evaluate_problem id traverse_beyond Z.eqb [0; 5]
             Line.stale_result tt beyond_solver (Line.world 3 []) [0; 5] 9 []).
  - vm_compute. reflexivity.
  - vm_compute. reflexivity.
  - reflexivity.
  - intros n [<-|[<-|[]]] _; vm_compute; eexists; reflexivity.
  - vm_compute. eexists. reflexivity.
  - vm_compute. reflexivity.
Defined.

End Runs.
